(** * active-handles: handle resolution and function identity

    A shallow embedding of [index.js]: the function identity resolver
    ([highlightSource], [functionInfo]), the handle walker ([resolveHandle]
    with its closures [wasVisited], [addInfo], [addHandleFn]), the handle set
    resolver ([resolveHandles], [activeHandles]) and the [setInterval] hook
    ([versionGreaterEqualOneSixTwo], [hookSetInterval]). *)

From Stdlib Require Import ZArith String Ascii List Lia DecimalString DecimalPos DecimalZ.
From stdpp Require Import base option list gmap strings.

Local Open Scope string_scope.
Local Open Scope Z_scope.
Local Open Scope list_scope.

(** ** JavaScript values *)

(** Function objects and handle objects are compared by identity; the
    model names each by a number. *)
Definition fnref := nat.
Definition objref := nat.
Bind Scope nat_scope with fnref objref.

(** The values the code reads off handle records. *)
Inductive value : Type :=
| VUndefined
| VNull
| VBool (b : bool)
| VNumber (n : Z)
| VString (s : string)
| VFunction (f : fnref).

#[global] Instance value_eq_dec : EqDecision value.
Proof. solve_decision. Defined.

(** [typeof x === 'function'] *)
Definition isFunction (x : value) : bool :=
  match x with
  | VFunction _ => true
  | _ => false
  end.

(** ToBoolean, as applied by [if (x)] and [!x]. *)
Definition truthy (x : value) : bool :=
  match x with
  | VUndefined | VNull => false
  | VBool b => b
  | VNumber n => negb (n =? 0)%Z
  | VString s => negb (String.eqb s "")
  | VFunction _ => true
  end.

(** [Array.prototype.indexOf]: the first position holding [x] under strict
    equality, [-1] when there is none. *)
Fixpoint indexOf_from {A} `{EqDecision A} (l : list A) (x : A) (i : Z) : Z :=
  match l with
  | [] => -1
  | y :: l' => if decide (y = x) then i else indexOf_from l' x (i + 1)
  end.

Definition indexOf {A} `{EqDecision A} (l : list A) (x : A) : Z :=
  indexOf_from l x 0.

(** [~n] on a number, and the truth value of a number in a condition. *)
Definition bitnot (n : Z) : Z := Z.lnot n.
Definition number_truthy (n : Z) : bool := negb (n =? 0)%Z.

(** ** Completions *)

Inductive error : Type :=
| TypeError (msg : string).

(** How a piece of code ends: it returns, it throws, or the model ran out of
    fuel before the loop finished. *)
Inductive completion (A : Type) : Type :=
| Normal (a : A)
| Throw (e : error)
| OutOfFuel.
Arguments Normal {A} a.
Arguments Throw {A} e.
Arguments OutOfFuel {A}.

(** ** The function identity resolver *)

(** What [function-origin] reports for a function. *)
Record location : Type := mkLocation {
  file : string;
  line : Z;
  column : Z;
  inferredName : string
}.

(** The reflection data of function objects and the two external
    collaborators: [function-origin] (absent result: [None]) and
    [cardinal.highlight] (a throw: [None]). *)
Record runtime : Type := mkRuntime {
  fn_name : fnref -> string;
  fn_toString : fnref -> string;
  getFunctionLocation : fnref -> option location;
  cardinal_highlight : string -> option string
}.

(** A resolved entry.  [msecs], [type] and [fd] are the properties the walker
    adds after [functionInfo] returned; [None] is an absent property.  The
    [handle] property is always undefined, since [addInfo] passes one
    argument. *)
Record info : Type := mkInfo {
  fn : value;
  name : string;
  source : string;
  highlighted : string;
  loc : option location;
  msecs : option value;
  type : option string;
  fd : option value
}.

Definition set_msecs (v : value) (i : info) : info :=
  mkInfo (fn i) (name i) (source i) (highlighted i) (loc i) (Some v) (type i) (fd i).
Definition set_type (t : string) (i : info) : info :=
  mkInfo (fn i) (name i) (source i) (highlighted i) (loc i) (msecs i) (Some t) (fd i).
Definition set_fd (v : value) (i : info) : info :=
  mkInfo (fn i) (name i) (source i) (highlighted i) (loc i) (msecs i) (type i) (Some v).

Definition unknown_function_name : string := "__unknown_function_name__".

Definition highlightSource (rt : runtime) (s : string) : string :=
  match cardinal_highlight rt s with
  | Some h => h
  | None => s
  end.

(** [location.line++] under [if (location)] *)
Definition bump_line (l : location) : location :=
  mkLocation (file l) (line l + 1) (column l) (inferredName l).

(** [!fn.name || !fn.name.length] *)
Definition is_anonymous (rt : runtime) (f : fnref) : bool :=
  String.eqb (fn_name rt f) "".

(** The text handed to the renderer. *)
Definition render_input (anonymous : bool) (nm src : string) : string :=
  if anonymous then nm +:+ " = " +:+ src else src.

(** [functionInfo(fn)].  [fn.toString()] raises on [null] and [undefined].
    The other primitives never hold a callback in a handle record and
    [function-origin] takes functions only; the model raises on them as
    well, and no property below rests on that.  On an anonymous function the code reads [location.inferredName]
    without the guard it used one statement earlier, which raises when
    [function-origin] returned nothing. *)
Definition functionInfo (rt : runtime) (fn : value) : completion info :=
  match fn with
  | VFunction f =>
      let src := fn_toString rt f in
      let location := bump_line <$> getFunctionLocation rt f in
      if is_anonymous rt f then
        match location with
        | None => Throw (TypeError "Cannot read property 'inferredName' of undefined")
        | Some l =>
            let name :=
              if negb (String.eqb (inferredName l) "") then inferredName l
              else unknown_function_name in
            Normal (mkInfo fn name src (highlightSource rt (render_input true name src))
                      location None None None)
        end
      else
        let name := fn_name rt f in
        Normal (mkInfo fn name src (highlightSource rt (render_input false name src))
                  location None None None)
  | VUndefined | VNull => Throw (TypeError "Cannot read property 'toString' of undefined")
  | _ => Throw (TypeError "fn is not a function")
  end.

(** ** Handle records *)

(** A handle, or a node of the idle list it hangs on.
    - [_idleNext]: the next node, [None] when the field is absent or falsy;
    - [_repeat], [_wrappedCallback], [_idleTimeout]: the field's value,
      [VUndefined] when absent;
    - [_onTimeout]: [None] when the object has no own property of that name;
    - [_handle]: the nested socket record, its own enumerable fields in the
      order [Object.keys] lists them, [None] when absent or falsy. *)
Record obj : Type := mkObj {
  _idleNext : option objref;
  _repeat : value;
  _wrappedCallback : value;
  _onTimeout : option value;
  _idleTimeout : value;
  _handle : option (list (string * value))
}.

Definition emptyObj : obj :=
  mkObj None VUndefined VUndefined None VUndefined None.

(** The object store.  Every reference denotes an object; the ones the store
    does not list have no fields. *)
Definition getObj (heap : gmap objref obj) (r : objref) : obj :=
  default emptyObj (heap !! r).

(** [o[key]] and [Object.keys(o)] on a nested socket record. *)
Fixpoint getField (o : list (string * value)) (key : string) : value :=
  match o with
  | [] => VUndefined
  | (k, v) :: o' => if String.eqb k key then v else getField o' key
  end.

Definition keys (o : list (string * value)) : list string := map fst o.

(** ** The walker's local state *)

(** The variables [resolveHandle] closes over, and the [type] property the
    socket branch stores on the function object [addInfo] itself. *)
Record state : Type := mkState {
  visited : list objref;
  resolvedFns : list value;
  resolved : list info;
  addInfo_type : option string
}.

Definition initState : state := mkState [] [] [] None.

(** Statements of [resolveHandle]: they update the local state, and return,
    throw or run out of fuel.  The state at a throw is the state the walk had
    reached. *)
Definition M (A : Type) : Type := state -> completion A * state.

Definition ret {A} (a : A) : M A := fun st => (Normal a, st).

Definition bind {A B} (m : M A) (k : A -> M B) : M B :=
  fun st =>
    match m st with
    | (Normal a, st') => k a st'
    | (Throw e, st') => (Throw e, st')
    | (OutOfFuel, st') => (OutOfFuel, st')
    end.

Definition throw {A} (e : error) : M A := fun st => (Throw e, st).
Definition diverge {A} : M A := fun st => (OutOfFuel, st).
Definition modify (f : state -> state) : M unit := fun st => (Normal tt, f st).

Declare Scope js_scope.
Delimit Scope js_scope with js.
Notation "x <- m ;; k" := (bind m (fun x => k))
  (at level 100, m at next level, right associativity) : js_scope.
Notation "m ;;; k" := (bind m (fun _ => k))
  (at level 100, right associativity) : js_scope.
Local Open Scope js_scope.

Definition push_visited (h : objref) : M unit :=
  modify (fun st => mkState (visited st ++ [h]) (resolvedFns st) (resolved st) (addInfo_type st)).
Definition push_resolvedFn (f : value) : M unit :=
  modify (fun st => mkState (visited st) (resolvedFns st ++ [f]) (resolved st) (addInfo_type st)).
Definition push_resolved (i : info) : M unit :=
  modify (fun st => mkState (visited st) (resolvedFns st) (resolved st ++ [i]) (addInfo_type st)).
Definition set_addInfo_type (t : string) : M unit :=
  modify (fun st => mkState (visited st) (resolvedFns st) (resolved st) (Some t)).

(** A statement is steady when it neither runs out of fuel nor touches
    [visited]. *)
Definition steady {A} (m : M A) : Prop :=
  forall st, fst (m st) <> OutOfFuel /\ visited (snd (m st)) = visited st.

(** A statement preserves a property of the state when the state it leaves
    has the property whenever the state it starts from has it. *)
Definition preserves {A} (I : state -> Prop) (m : M A) : Prop :=
  forall st, I st -> I (snd (m st)).

(** [Array.prototype.forEach] *)
Fixpoint forEach {A} (f : A -> M unit) (l : list A) : M unit :=
  match l with
  | [] => ret tt
  | x :: l' => f x ;;; forEach f l'
  end.

(** ** resolveHandle *)

(** [wasVisited(h)]: [~visited.indexOf(h)] *)
Definition wasVisited (st : state) (h : objref) : Z :=
  bitnot (indexOf (visited st) h).

(** [addInfo(fn)].  A function already resolved gives [undefined], here
    [None]; otherwise the new entry is pushed on [resolved] and returned.
    The returned object is the one [resolved] holds, so the model returns its
    position in [resolved]. *)
Definition addInfo (rt : runtime) (fn : value) : M (option nat) :=
  fun st =>
    if number_truthy (bitnot (indexOf (resolvedFns st) fn)) then (Normal None, st)
    else
      (push_resolvedFn fn ;;;
       fun st1 =>
         match functionInfo rt fn with
         | Normal i => (push_resolved i ;;; ret (Some (length (resolved st1)))) st1
         | Throw e => (Throw e, st1)
         | OutOfFuel => (OutOfFuel, st1)
         end) st.

(** [addedInfo.p = v]: a property write through the reference [addInfo]
    returned; on [undefined] it raises. *)
Definition assign (addedInfo : option nat) (upd : info -> info) : M unit :=
  match addedInfo with
  | None => throw (TypeError "Cannot set property of undefined")
  | Some i =>
      modify (fun st =>
        mkState (visited st) (resolvedFns st) (alter upd i (resolved st)) (addInfo_type st))
  end.

Definition type_setInterval : string := "setInterval".
Definition type_setTimeout : string := "setTimeout".
Definition type_net_connection : string := "net connection".
Definition type_net_client_connection : string := "net client connection".
Definition type_unknown : string := "unknown".

(** The body of the [for] loop after [visited.push(next)]. *)
Definition processNode (rt : runtime) (next : obj) : M unit :=
  let repeatIsFn := isFunction (_repeat next) in
  let hasWrappedCallback := isFunction (_wrappedCallback next) in
  if negb repeatIsFn && negb hasWrappedCallback
     && negb (bool_decide (is_Some (_onTimeout next)))
  then ret tt
  else
    let fn :=
      if repeatIsFn then _repeat next
      else if hasWrappedCallback then _wrappedCallback next
      else default VUndefined (_onTimeout next) in
    addedInfo <- addInfo rt fn ;;
    assign addedInfo (set_msecs (_idleTimeout next)) ;;;
    assign addedInfo
      (set_type (if hasWrappedCallback || repeatIsFn then type_setInterval
                 else type_setTimeout)).

(** The [for] loop:
    [for (next = handle._idleNext; !!next && !wasVisited(next);
          next = next._idleNext)]. *)
Fixpoint walkIdleList (rt : runtime) (heap : gmap objref obj) (fuel : nat)
    (next : option objref) : M unit :=
  match fuel with
  | O => diverge
  | S fuel' =>
      match next with
      | None => ret tt
      | Some n =>
          fun st =>
            if number_truthy (wasVisited st n) then (Normal tt, st)
            else
              (push_visited n ;;;
               processNode rt (getObj heap n) ;;;
               walkIdleList rt heap fuel' (_idleNext (getObj heap n))) st
      end
  end.

(** [addHandleFn(key)] over the nested record [h = handle._handle]. *)
Definition addHandleFn (rt : runtime) (h : list (string * value)) (key : string) : M unit :=
  let value := getField h key in
  if negb (isFunction value) then ret tt
  else
    addedInfo <- addInfo rt value ;;
    if truthy (getField h "fd") then
      assign addedInfo (set_fd (getField h "fd")) ;;;
      if String.eqb key "onconnection" then
        assign addedInfo (set_type type_net_connection)
      else if String.eqb key "onread" then
        assign addedInfo (set_type type_net_client_connection)
      else set_addInfo_type type_unknown
    else ret tt.

(** [if (handle._handle) Object.keys(handle._handle).forEach(addHandleFn)] *)
Definition walkSocket (rt : runtime) (h : option (list (string * value))) : M unit :=
  match h with
  | Some o => forEach (addHandleFn rt o) (keys o)
  | None => ret tt
  end.

(** A walk over a store of [n] objects runs the loop test at most [n + 2]
    times. *)
Definition walkFuel (heap : gmap objref obj) : nat := S (S (size heap)).

Definition resolveHandle_run (rt : runtime) (heap : gmap objref obj) (handle : objref) : M unit :=
  walkIdleList rt heap (walkFuel heap) (_idleNext (getObj heap handle)) ;;;
  walkSocket rt (_handle (getObj heap handle)).

Definition resolveHandle (rt : runtime) (heap : gmap objref obj) (handle : objref)
    : completion (list info) :=
  match resolveHandle_run rt heap handle initState with
  | (Normal _, st) => Normal (resolved st)
  | (Throw e, _) => Throw e
  | (OutOfFuel, _) => OutOfFuel
  end.

(** ** resolveHandles and activeHandles *)

(** [resolved.forEach(pushHandle)] *)
Definition pushAll (resolved resolvedHandles : list info) : list info :=
  fold_left (fun acc h => acc ++ [h]) resolved resolvedHandles.

(** [handles.forEach(resolveCurrentHandle)] over the accumulator
    [resolvedHandles]. *)
Fixpoint resolveHandles_from (rt : runtime) (heap : gmap objref obj)
    (handles : list objref) (resolvedHandles : list info) : completion (list info) :=
  match handles with
  | [] => Normal resolvedHandles
  | handle :: rest =>
      match resolveHandle rt heap handle with
      | Normal resolved =>
          resolveHandles_from rt heap rest (pushAll resolved resolvedHandles)
      | Throw e => Throw e
      | OutOfFuel => OutOfFuel
      end
  end.

Definition resolveHandles (rt : runtime) (heap : gmap objref obj) (handles : list objref)
    : completion (list info) :=
  resolveHandles_from rt heap handles [].

(** [activeHandles()], given what [process._getActiveHandles()] returned. *)
Definition activeHandles (rt : runtime) (heap : gmap objref obj) (handles : list objref)
    : completion (list info) :=
  if (length handles =? 0)%nat then Normal [] else resolveHandles rt heap handles.

(** ** The setInterval hook *)

(** [v.slice(1)] *)
Definition slice1 (v : string) : string :=
  match v with
  | EmptyString => EmptyString
  | String _ rest => rest
  end.

(** [s.split(sep)] for a one-character separator. *)
Fixpoint split (sep : ascii) (s : string) : list string :=
  match s with
  | EmptyString => [EmptyString]
  | String c rest =>
      if Ascii.eqb c sep then EmptyString :: split sep rest
      else
        match split sep rest with
        | [] => [String c EmptyString]
        | piece :: pieces => String c piece :: pieces
        end
  end.

Definition digit_of (c : ascii) : option Z :=
  let n := Z.of_nat (nat_of_ascii c) in
  if (48 <=? n) && (n <=? 57) then Some (n - 48) else None.

Fixpoint decimal_from (s : string) (acc : Z) : option Z :=
  match s with
  | EmptyString => Some acc
  | String c rest =>
      match digit_of c with
      | Some d => decimal_from rest (10 * acc + d)
      | None => None
      end
  end.

(** ToNumber on a string: the empty string is [0], a run of decimal digits is
    its value, and anything else is [NaN], here [None].  Signs, fractions,
    exponents, radix prefixes and surrounding blanks, which ToNumber also
    reads, do not occur in the components of a release version. *)
Definition toNumber (s : string) : option Z := decimal_from s 0.

(** [s < k] for a string [s] and a number [k]: a comparison with [NaN] is
    false. *)
Definition lt_number (s : string) (k : Z) : bool :=
  match toNumber s with
  | Some n => n <? k
  | None => false
  end.

Definition versionGreaterEqualOneSixTwo (v : string) : bool :=
  let digits := split "." (slice1 v) in
  if negb (length digits =? 3)%nat then false
  else
    match digits with
    | [d0; d1; d2] =>
        if lt_number d0 1 || lt_number d1 6 || lt_number d2 2 then false else true
    | _ => false
    end.

(** The function stored at [timers.setInterval]: the runtime's own, or the
    hook wrapped around the function it replaced. *)
Inductive setIntervalFn : Type :=
| nativeSetInterval
| setIntervalHook (setInterval_ : setIntervalFn).

(** Calling that function: the hook calls the function it wrapped and stores
    [arguments[0]] on the timer as [_wrappedCallback]. *)
Fixpoint applySetInterval (native : list value -> obj) (f : setIntervalFn)
    (arguments : list value) : obj :=
  match f with
  | nativeSetInterval => native arguments
  | setIntervalHook setInterval_ =>
      let t := applySetInterval native setInterval_ arguments in
      mkObj (_idleNext t) (_repeat t) (nth 0 arguments VUndefined) (_onTimeout t)
        (_idleTimeout t) (_handle t)
  end.

(** [hookSetInterval()], given [process.version] and the current
    [timers.setInterval]; the result is the new [timers.setInterval]. *)
Definition hookSetInterval (version : string) (timers_setInterval : setIntervalFn)
    : setIntervalFn :=
  if versionGreaterEqualOneSixTwo version then timers_setInterval
  else setIntervalHook timers_setInterval.

(** ** The properties in the words of the specification *)

(** The three ways a qualifying node yields its callback, in order of
    precedence. *)
Inductive callbackPath : Type :=
| RepeatPath
| WrappedPath
| TimeoutPath.

Definition chosenPath (next : obj) : callbackPath :=
  if isFunction (_repeat next) then RepeatPath
  else if isFunction (_wrappedCallback next) then WrappedPath
  else TimeoutPath.

Definition pathCallback (next : obj) (p : callbackPath) : value :=
  match p with
  | RepeatPath => _repeat next
  | WrappedPath => _wrappedCallback next
  | TimeoutPath => default VUndefined (_onTimeout next)
  end.

(** Repeating timer on the repeat and wrapped paths, one-shot timer
    otherwise. *)
Definition pathKind (p : callbackPath) : string :=
  match p with
  | RepeatPath | WrappedPath => type_setInterval
  | TimeoutPath => type_setTimeout
  end.

(** A node qualifies when it carries a callable repeat callback, a callable
    wrapped callback or a timeout marker. *)
Definition isTimerNode (next : obj) : bool :=
  isFunction (_repeat next) || isFunction (_wrappedCallback next)
  || bool_decide (is_Some (_onTimeout next)).

Definition nodeCallback (next : obj) : value := pathCallback next (chosenPath next).

Definition timerEntry (i : info) (next : obj) : info :=
  set_type (pathKind (chosenPath next)) (set_msecs (_idleTimeout next) i).

(** The entries a chain of nodes yields: one per qualifying node, in chain
    order. *)
Fixpoint timerEntries (rt : runtime) (nodes : list obj) : list info :=
  match nodes with
  | [] => []
  | next :: rest =>
      if isTimerNode next then
        match functionInfo rt (nodeCallback next) with
        | Normal i => timerEntry i next :: timerEntries rt rest
        | _ => timerEntries rt rest
        end
      else timerEntries rt rest
  end.

(** The callbacks of the qualifying nodes, in chain order. *)
Definition timerCallbacks (nodes : list obj) : list value :=
  map nodeCallback (List.filter isTimerNode nodes).

Definition resolvable (rt : runtime) (fn : value) : Prop :=
  exists i, functionInfo rt fn = Normal i.

(** [ns] is the run of nodes the links lead through from [start], and [stop]
    is the link out of the last one. *)
Fixpoint linked (heap : gmap objref obj) (start : option objref) (ns : list objref)
    (stop : option objref) : Prop :=
  match ns with
  | [] => start = stop
  | n :: ns' => start = Some n /\ linked heap (_idleNext (getObj heap n)) ns' stop
  end.

(** What the socket branch makes of the entry [i] found under [key] on a
    record whose descriptor [d] is truthy. *)
Definition socketEntry (key : string) (d : value) (i : info) : info :=
  if String.eqb key "onconnection" then set_type type_net_connection (set_fd d i)
  else if String.eqb key "onread" then set_type type_net_client_connection (set_fd d i)
  else set_fd d i.

(** An entry as [functionInfo] left it, for a callable field of the socket
    record [o]: no interval, no kind, no descriptor. *)
Definition plainSocketEntry (o : list (string * value)) (e : info) : Prop :=
  fd e = None /\ type e = None /\ msecs e = None
  /\ exists key, key ∈ keys o /\ getField o key = fn e.

(** An entry the walk along the idle list can leave: no descriptor, and a
    timer kind if it has a kind at all. *)
Definition timerShaped (e : info) : Prop :=
  fd e = None
  /\ (type e = None \/ type e = Some type_setInterval \/ type e = Some type_setTimeout).

(** The results of the handles, in order: the first one that does not return
    decides, otherwise the returned lists are concatenated. *)
Fixpoint collect (results : list (completion (list info))) : completion (list info) :=
  match results with
  | [] => Normal []
  | Normal r :: rest =>
      match collect rest with
      | Normal rs => Normal (r ++ rs)
      | other => other
      end
  | Throw e :: _ => Throw e
  | OutOfFuel :: _ => OutOfFuel
  end.

(** A release version [vMAJOR.MINOR.PATCH] read as three numbers. *)
Definition parseVersion (v : string) : option (Z * Z * Z) :=
  match split "." (slice1 v) with
  | [a; b; c] =>
      match toNumber a, toNumber b, toNumber c with
      | Some x, Some y, Some z => Some (x, y, z)
      | _, _, _ => None
      end
  | _ => None
  end.

(** At or above 1.6.2 in version order. *)
Definition atLeastOneSixTwo (v : Z * Z * Z) : bool :=
  let '(major, minor, patch) := v in
  (1 <? major) || ((major =? 1) && ((6 <? minor) || ((minor =? 6) && (2 <=? patch)))).

(** ** The report printer *)

(** ToString on an integer: its decimal digits, with a leading minus sign
    when negative. *)
Definition numberToString (n : Z) : string := NilZero.string_of_int (Z.to_int n).

(** ToString, as string concatenation applies it to a value. *)
Definition toStringValue (rt : runtime) (v : value) : string :=
  match v with
  | VUndefined => "undefined"
  | VNull => "null"
  | VBool true => "true"
  | VBool false => "false"
  | VNumber n => numberToString n
  | VString s => s
  | VFunction f => fn_toString rt f
  end.

(** The two [ansicolors] functions [print] calls. *)
Record colors : Type := mkColors {
  green : string -> string;
  brightBlack : string -> string
}.

Definition newline : string := String (ascii_of_nat 10) EmptyString.

(** [loc ? format('%s:%d:%d', loc.file, loc.line, loc.column)
        : 'Unknown location'] *)
Definition locString (h : info) : string :=
  match loc h with
  | Some l =>
      file l +:+ ":" +:+ numberToString (line l) +:+ ":" +:+ numberToString (column l)
  | None => "Unknown location"
  end.

(** [printed[locString] ? 'Count: ' + (printed[locString] + 1)
        + '. Source printed above' : h.highlighted] *)
Definition highlightString (printed : gmap string Z) (h : info) : string :=
  match printed !! locString h with
  | Some n =>
      if number_truthy n
      then "Count: " +:+ numberToString (n + 1) +:+ ". Source printed above"
      else highlighted h
  | None => highlighted h
  end.

(** [h.fd ? ', fd = ' + h.fd : ''] *)
Definition fdString (rt : runtime) (h : info) : string :=
  match fd h with
  | Some v => if truthy v then ", fd = " +:+ toStringValue rt v else ""
  | None => ""
  end.

(** [h.type || 'unknown type'] *)
Definition typeString (h : info) : string :=
  match type h with
  | Some t => if String.eqb t "" then "unknown type" else t
  | None => "unknown type"
  end.

(** The text one [console.log] call of [print] writes, the line end that
    [console.log] adds left out. *)
Definition printBlock (rt : runtime) (c : colors) (printed : gmap string Z) (h : info)
    : string :=
  newline +:+ green c (name h +:+ ":") +:+ " " +:+ brightBlack c (locString h)
  +:+ " (" +:+ typeString h +:+ fdString rt h +:+ ")" +:+ newline
  +:+ highlightString printed h.

(** [printed[locString] = (printed[locString] || 0) + 1] *)
Definition countPrinted (printed : gmap string Z) (s : string) : gmap string Z :=
  <[s := (match printed !! s with
          | Some n => if number_truthy n then n else 0
          | None => 0
          end) + 1]> printed.

(** The [for] loop of [print] over the resolved handles; [log] collects what
    was written. *)
Fixpoint printLoop (rt : runtime) (c : colors) (handles : list info)
    (printed : gmap string Z) (log : list string) : list string :=
  match handles with
  | [] => log
  | h :: rest =>
      printLoop rt c rest (countPrinted printed (locString h))
        (log ++ [printBlock rt c printed h])
  end.

(** [print()]: how it ends, and what it wrote to standard output. *)
Definition print (rt : runtime) (c : colors) (heap : gmap objref obj) (handles : list objref)
    : completion unit * list string :=
  match activeHandles rt heap handles with
  | Normal hs => (Normal tt, printLoop rt c hs ∅ [])
  | Throw e => (Throw e, [])
  | OutOfFuel => (OutOfFuel, [])
  end.

(** ** More properties in the words of the code's documentation *)

(** The entries already reported that share the location text [s]. *)
Definition occurrences (s : string) (seen : list info) : Z :=
  Z.of_nat (length (List.filter (fun e => String.eqb (locString e) s) seen)).

(** The block for [h] after the entries [seen]: the first entry at a
    location shows its source, a later one the running count. *)
Definition reportBlock (rt : runtime) (c : colors) (seen : list info) (h : info) : string :=
  newline +:+ green c (name h +:+ ":") +:+ " " +:+ brightBlack c (locString h)
  +:+ " (" +:+ typeString h +:+ fdString rt h +:+ ")" +:+ newline
  +:+ (if (occurrences (locString h) seen =? 0)%Z then highlighted h
       else "Count: " +:+ numberToString (occurrences (locString h) seen + 1)
            +:+ ". Source printed above").

Fixpoint reportFrom (rt : runtime) (c : colors) (seen : list info) (hs : list info)
    : list string :=
  match hs with
  | [] => []
  | h :: rest => reportBlock rt c seen h :: reportFrom rt c (seen ++ [h]) rest
  end.

(** Two entries are at the same place when both lack a location, or both
    have one with the same file, line and column. *)
Definition samePlace (h1 h2 : info) : Prop :=
  match loc h1, loc h2 with
  | None, None => True
  | Some l1, Some l2 => file l1 = file l2 /\ line l1 = line l2 /\ column l1 = column l2
  | _, _ => False
  end.

(** The text before and after the last colon of a string, if it has one. *)
Fixpoint splitLastColon (s : string) : option (string * string) :=
  match s with
  | EmptyString => None
  | String a rest =>
      match splitLastColon rest with
      | Some (before, after) => Some (String a before, after)
      | None => if Ascii.eqb a ":" then Some (EmptyString, rest) else None
      end
  end.

(** The callable fields of a socket record, in key order, and the entries
    they yield when the record has a truthy descriptor. *)
Definition socketCallbacks (o : list (string * value)) (ks : list string) : list value :=
  List.filter isFunction (map (getField o) ks).

Fixpoint socketEntries (rt : runtime) (o : list (string * value)) (ks : list string)
    : list info :=
  match ks with
  | [] => []
  | key :: rest =>
      if isFunction (getField o key) then
        match functionInfo rt (getField o key) with
        | Normal i => socketEntry key (getField o "fd") i :: socketEntries rt o rest
        | _ => socketEntries rt o rest
        end
      else socketEntries rt o rest
  end.

(** The values of a list in order, each kept at its first occurrence and
    left out when [seen] has it. *)
Fixpoint keepFirst (seen : list value) (l : list value) : list value :=
  match l with
  | [] => []
  | v :: rest =>
      if decide (v ∈ seen) then keepFirst seen rest
      else v :: keepFirst (seen ++ [v]) rest
  end.

(** The identity [functionInfo] gives an entry, whatever the walker added
    to it afterwards. *)
Definition identifiedBy (rt : runtime) (e : info) : Prop :=
  exists f i,
    fn e = VFunction f /\ functionInfo rt (VFunction f) = Normal i
    /\ name e = name i /\ source e = source i /\ highlighted e = highlighted i
    /\ loc e = loc i.

(** The same reflection data with another renderer. *)
Definition with_renderer (rt : runtime) (highlight : string -> option string) : runtime :=
  mkRuntime (fn_name rt) (fn_toString rt) (getFunctionLocation rt) highlight.

(** ** Sample runtimes and handle records *)

(** Function 0 is the named function [tick]; 1 is anonymous and was assigned
    to [onData]; 2 is anonymous with no inferred name; every other function
    is anonymous and [function-origin] reports nothing for it. *)
Definition sampleReflection (highlight : string -> option string) : runtime :=
  mkRuntime
    (fun f => match f with O => "tick" | _ => "" end)
    (fun f => match f with O => "function tick() {}" | _ => "function () {}" end)
    (fun f =>
       match f with
       | 0%nat => Some (mkLocation "app.js" 9 2 "")
       | 1%nat => Some (mkLocation "app.js" 20 12 "onData")
       | 2%nat => Some (mkLocation "app.js" 30 0 "")
       | _ => None
       end)
    highlight.

(** A renderer that numbers the line, and one that always throws. *)
Definition sampleRuntime : runtime := sampleReflection (fun s => Some ("1: " +:+ s)).
Definition brokenRendererRuntime : runtime := sampleReflection (fun _ => None).

Definition timerNode (next : option objref) (onTimeout : value) (ms : Z) : obj :=
  mkObj next VUndefined VUndefined (Some onTimeout) (VNumber ms) None.
Definition plainNode (next : option objref) : obj :=
  mkObj next VUndefined VUndefined None VUndefined None.
Definition socketHandle (fields : list (string * value)) : obj :=
  mkObj None VUndefined VUndefined None VUndefined (Some fields).

(** Handle 0 heads the list 1 -> 2 -> 3; only node 2 is a timer. *)
Definition heapScenarioA : gmap objref obj :=
  list_to_map [(0%nat, plainNode (Some 1%nat)); (1%nat, plainNode (Some 2%nat));
               (2%nat, timerNode (Some 3%nat) (VFunction 0%nat) 100); (3%nat, plainNode None)].

(** Handle 0 heads the list 1 -> 2, and both timers run [tick]. *)
Definition heapSameCallbackTwice : gmap objref obj :=
  list_to_map [(0%nat, plainNode (Some 1%nat));
               (1%nat, timerNode (Some 2%nat) (VFunction 0) 100);
               (2%nat, timerNode None (VFunction 0) 250)].

(** Handle 0 heads the list 1 -> 2 -> 0, which leads back to the handle. *)
Definition heapCycle : gmap objref obj :=
  list_to_map [(0%nat, plainNode (Some 1%nat));
               (1%nat, timerNode (Some 2%nat) (VFunction 0) 100);
               (2%nat, timerNode (Some 0%nat) (VFunction 1) 250)].

(** Handles 0 and 1 each head a list of one timer, and both timers run
    [tick]. *)
Definition heapTwoHandles : gmap objref obj :=
  list_to_map [(0%nat, plainNode (Some 2%nat)); (1%nat, plainNode (Some 3%nat));
               (2%nat, timerNode None (VFunction 0) 100);
               (3%nat, timerNode None (VFunction 0) 100)].

(** Socket handles. *)
Definition heapListener : gmap objref obj :=
  {[ 0%nat := socketHandle [("onconnection", VFunction 0); ("fd", VNumber 7)] ]}.
Definition heapUnknownField : gmap objref obj :=
  {[ 0%nat := socketHandle [("fd", VNumber 7); ("onclose", VFunction 0)] ]}.
Definition heapSameCallbackTwoFields : gmap objref obj :=
  {[ 0%nat := socketHandle [("fd", VNumber 7); ("onread", VFunction 0);
                            ("onend", VFunction 0)] ]}.
Definition heapDescriptorZero : gmap objref obj :=
  {[ 0%nat := socketHandle [("fd", VNumber 0); ("onconnection", VFunction 0);
                            ("onread", VFunction 1)] ]}.
Definition heapNoLocation : gmap objref obj :=
  {[ 0%nat := socketHandle [("onread", VFunction 3)] ]}.

(** A socket that is on an idle list: node 1 is a timer running [tick], and
    the handle's own record has a descriptor, a listener callback assigned to
    [onData] and an anonymous close callback. *)
Definition heapSocketWithTimeout : gmap objref obj :=
  list_to_map
    [(0%nat, mkObj (Some 1%nat) VUndefined VUndefined None VUndefined
               (Some [("fd", VNumber 12); ("onconnection", VFunction 1);
                      ("onclose", VFunction 2)]));
     (1%nat, timerNode None (VFunction 0) 500)].

(** A socket record without descriptor that holds [tick] under two fields. *)
Definition heapSameCallbackNoDescriptor : gmap objref obj :=
  {[ 0%nat := socketHandle [("onread", VFunction 0); ("onend", VFunction 0);
                            ("onclose", VFunction 1)] ]}.

(** Colours that bracket the text, and a runtime's own [setInterval] that
    keeps its wrapper in [_onTimeout]. *)
Definition sampleColors : colors :=
  mkColors (fun s => "<g>" +:+ s +:+ "</g>") (fun s => "<b>" +:+ s +:+ "</b>").

Definition sampleNativeSetInterval (arguments : list value) : obj :=
  mkObj None VUndefined VUndefined (Some (VFunction 2)) (nth 1 arguments VUndefined) None.

(** Handle 0 heads a list whose only node is the timer the hooked
    [setInterval] made for [tick] and 1000 ms. *)
Definition heapHookedInterval : gmap objref obj :=
  list_to_map
    [(0%nat, plainNode (Some 1%nat));
     (1%nat, applySetInterval sampleNativeSetInterval (setIntervalHook nativeSetInterval)
               [VFunction 0%nat; VNumber 1000])].

(** * Properties *)

(** ** Membership tests written with [~indexOf] *)

Section IndexOf.
Context {A : Type} `{EqDecision A}.

Lemma indexOf_from_range (l : list A) (x : A) (i : Z) :
  indexOf_from l x i = -1 \/ i <= indexOf_from l x i.
Proof.
  revert i. induction l as [|y l IH]; intros i; simpl.
  - by left.
  - destruct (decide (y = x)); [right; lia|].
    destruct (IH (i + 1)) as [->|Hle]; [by left | right; lia].
Qed.

Lemma indexOf_from_absent (l : list A) (x : A) (i : Z) :
  0 <= i -> indexOf_from l x i = -1 <-> x ∉ l.
Proof.
  revert i. induction l as [|y l IH]; intros i Hi; simpl.
  - split; [intros _; apply not_elem_of_nil | done].
  - destruct (decide (y = x)) as [->|Hne].
    + split; [lia | intros Hn; exfalso; apply Hn; left].
    + rewrite IH by lia. rewrite not_elem_of_cons.
      split; [intros Hn; split; [congruence | exact Hn] | intros [_ Hn]; exact Hn].
Qed.

(** [~l.indexOf(x)] is truthy exactly when [x] is in [l]. *)
Lemma seen_iff (l : list A) (x : A) :
  number_truthy (bitnot (indexOf l x)) = true <-> x ∈ l.
Proof.
  unfold number_truthy, bitnot, indexOf.
  rewrite negb_true_iff, Z.eqb_neq.
  pose proof (indexOf_from_absent l x 0 ltac:(lia)) as Habs.
  pose proof (indexOf_from_range l x 0) as Hrange.
  unfold Z.lnot, Z.pred. split.
  - intros Hnz. destruct (decide (x ∈ l)) as [|Hn]; [done|].
    apply Habs in Hn. lia.
  - intros Hin Hz. assert (indexOf_from l x 0 = -1) as Heq by lia.
    apply Habs in Heq. done.
Qed.

Lemma seen_false_iff (l : list A) (x : A) :
  number_truthy (bitnot (indexOf l x)) = false <-> x ∉ l.
Proof.
  rewrite <- seen_iff.
  destruct (number_truthy _); split; intros Hx; try done; by exfalso; apply Hx.
Qed.
End IndexOf.

(** ** The function identity resolver *)

Lemma append_nonempty (a b : string) : b <> "" -> a +:+ b <> "".
Proof. destruct a; simpl; [done | discriminate]. Qed.

Lemma render_input_nonempty (anonymous : bool) (nm src : string) :
  src <> "" -> render_input anonymous nm src <> "".
Proof.
  intros Hsrc. destruct anonymous; simpl; [|done].
  apply append_nonempty. discriminate.
Qed.

(** What [functionInfo] returns for a function, when it returns. *)
Lemma functionInfo_returns (rt : runtime) (f : fnref) (i : info) :
  functionInfo rt (VFunction f) = Normal i ->
  fn i = VFunction f /\ source i = fn_toString rt f
  /\ loc i = bump_line <$> getFunctionLocation rt f
  /\ highlighted i = highlightSource rt (render_input (is_anonymous rt f) (name i) (source i))
  /\ msecs i = None /\ type i = None /\ fd i = None.
Proof.
  unfold functionInfo. destruct (is_anonymous rt f).
  - destruct (getFunctionLocation rt f) as [l|]; simpl; [|discriminate].
    intros [= <-]. simpl. repeat split.
  - intros [= <-]. simpl. repeat split.
Qed.

(** [functionInfo] raises on a function only when the function is anonymous
    and has no location. *)
Lemma functionInfo_completes (rt : runtime) (f : fnref) :
  (exists i, functionInfo rt (VFunction f) = Normal i)
  <-> (is_anonymous rt f = false \/ is_Some (getFunctionLocation rt f)).
Proof.
  unfold functionInfo. destruct (is_anonymous rt f).
  - destruct (getFunctionLocation rt f) as [l|]; simpl.
    + split; [intros _; right; eauto | intros _; eauto].
    + split; [intros [i Hi]; discriminate | intros [Hf|[l Hl]]; discriminate].
  - split; [intros _; by left | intros _; eauto].
Qed.

Lemma functionInfo_never_out_of_fuel (rt : runtime) (v : value) :
  functionInfo rt v <> OutOfFuel.
Proof.
  unfold functionInfo. destruct v; try discriminate.
  destruct (is_anonymous rt f); [|discriminate].
  destruct (getFunctionLocation rt f); simpl; discriminate.
Qed.

Lemma functionInfo_fn (rt : runtime) (v : value) (i : info) :
  functionInfo rt v = Normal i -> fn i = v /\ msecs i = None /\ type i = None /\ fd i = None.
Proof.
  destruct v; try discriminate. intros Hi.
  apply functionInfo_returns in Hi.
  destruct Hi as (Hfn & _ & _ & _ & Hm & Ht & Hfd). done.
Qed.

(** With a location at hand, an anonymous function gets the inferred name
    when there is one and the sentinel otherwise. *)
Lemma functionInfo_anonymous_name (rt : runtime) (f : fnref) (l : location) :
  is_anonymous rt f = true ->
  getFunctionLocation rt f = Some l ->
  exists i, functionInfo rt (VFunction f) = Normal i
    /\ name i = (if String.eqb (inferredName l) "" then unknown_function_name
                 else inferredName l)
    /\ name i <> "".
Proof.
  intros Hanon Hloc. unfold functionInfo. rewrite Hanon, Hloc. simpl.
  eexists. split; [reflexivity|]. simpl.
  destruct (String.eqb_spec (inferredName l) ""); simpl; [|done].
  split; [done | discriminate].
Qed.

(** For an anonymous function, [functionInfo] returns an entry exactly when
    [function-origin] reports a location. *)
Lemma functionInfo_anonymous (rt : runtime) (f : fnref) :
  is_anonymous rt f = true ->
  match getFunctionLocation rt f with
  | Some l =>
      exists i, functionInfo rt (VFunction f) = Normal i
        /\ name i = (if String.eqb (inferredName l) "" then unknown_function_name
                     else inferredName l)
        /\ name i <> ""
  | None =>
      functionInfo rt (VFunction f)
      = Throw (TypeError "Cannot read property 'inferredName' of undefined")
  end.
Proof.
  intros Hanon. destruct (getFunctionLocation rt f) as [l|] eqn:Hloc.
  - by apply functionInfo_anonymous_name.
  - unfold functionInfo. by rewrite Hanon, Hloc.
Qed.

(** C8.  An anonymous function for which [function-origin] reports nothing
    gets no name at all, neither an inferred one nor the sentinel
    ["__unknown_function_name__"]: [functionInfo] raises while reading
    [location.inferredName], and [resolveHandle] with it.  With a location
    the name is the inferred one or the sentinel. *)
Theorem anonymous_name_needs_location :
  (is_anonymous sampleRuntime 3 = true
   /\ getFunctionLocation sampleRuntime 3 = None
   /\ functionInfo sampleRuntime (VFunction 3)
      = Throw (TypeError "Cannot read property 'inferredName' of undefined")
   /\ resolveHandle sampleRuntime heapNoLocation 0
      = Throw (TypeError "Cannot read property 'inferredName' of undefined"))
  /\ (exists i, functionInfo sampleRuntime (VFunction 1) = Normal i /\ name i = "onData")
  /\ (exists i, functionInfo sampleRuntime (VFunction 2) = Normal i
        /\ name i = unknown_function_name).
Proof.
  split; [repeat split; vm_compute; reflexivity|].
  split; eexists; (split; [vm_compute; reflexivity | reflexivity]).
Qed.

(** C7, as stated, fails: with a renderer that throws, the anonymous function
    assigned to [onData] gets a [highlighted] text that differs from its
    [source]. *)
Lemma highlighted_fallback_is_not_source :
  exists i, functionInfo brokenRendererRuntime (VFunction 1) = Normal i
    /\ cardinal_highlight brokenRendererRuntime
         (render_input true (name i) (source i)) = None
    /\ source i = "function () {}"
    /\ highlighted i = "onData = function () {}"
    /\ highlighted i <> source i.
Proof. eexists. split; [vm_compute; reflexivity|]. simpl. repeat split. discriminate. Qed.

(** C7, amended.  When the renderer throws, [highlighted] is the text handed
    to the renderer: [source] for a named function and
    [name + ' = ' + source] for an anonymous one, so it is non-empty whenever
    [source] is.  When the renderer returns, [highlighted] is what it
    returned, non-empty if the renderer keeps non-empty text non-empty.
    Whether [functionInfo] returns does not depend on the renderer. *)
Theorem highlighted_falls_back_to_renderer_input (rt : runtime) (f : fnref) (i : info) :
  functionInfo rt (VFunction f) = Normal i ->
  let text := render_input (is_anonymous rt f) (name i) (source i) in
  (cardinal_highlight rt text = None ->
     highlighted i = text
     /\ (is_anonymous rt f = false -> highlighted i = source i)
     /\ (is_anonymous rt f = true -> highlighted i = name i +:+ " = " +:+ source i)
     /\ (source i <> "" -> highlighted i <> ""))
  /\ (forall out, cardinal_highlight rt text = Some out -> highlighted i = out)
  /\ ((forall s out, s <> "" -> cardinal_highlight rt s = Some out -> out <> "") ->
      source i <> "" -> highlighted i <> "")
  /\ (forall highlight, exists i', functionInfo (with_renderer rt highlight) (VFunction f) = Normal i'
        /\ name i' = name i /\ source i' = source i /\ loc i' = loc i).
Proof.
  intros Hi text.
  pose proof (functionInfo_returns _ _ _ Hi) as (Hfn & Hsrc & Hloc & Hhl & _).
  fold text in Hhl. unfold highlightSource in Hhl.
  split; [|split; [|split]].
  - intros Hfail. rewrite Hfail in Hhl. split; [done|]. split; [|split].
    + intros Hnamed. rewrite Hhl. unfold text. by rewrite Hnamed.
    + intros Hanon. rewrite Hhl. unfold text. by rewrite Hanon.
    + intros Hne. rewrite Hhl. by apply render_input_nonempty.
  - intros out Hout. by rewrite Hout in Hhl.
  - intros Hkeep Hne. destruct (cardinal_highlight rt text) as [out|] eqn:Hr.
    + rewrite Hhl. eapply Hkeep; [|exact Hr]. by apply render_input_nonempty.
    + rewrite Hhl. by apply render_input_nonempty.
  - intros highlight. revert Hi. unfold functionInfo. simpl.
    change (is_anonymous (with_renderer rt highlight) f) with (is_anonymous rt f).
    destruct (is_anonymous rt f).
    + destruct (getFunctionLocation rt f) as [l|]; simpl; [|discriminate].
      intros [= <-]. eexists. split; [reflexivity|]. simpl. done.
    + intros [= <-]. eexists. split; [reflexivity|]. simpl. done.
Qed.

Lemma highlighted_falls_back_witness :
  exists i, functionInfo brokenRendererRuntime (VFunction 1) = Normal i
    /\ highlighted i = "onData = function () {}".
Proof.
  eexists. split; [vm_compute; reflexivity|].
  pose proof (highlighted_falls_back_to_renderer_input brokenRendererRuntime 1 _
                ltac:(vm_compute; reflexivity)) as [Hfail _].
  destruct (Hfail ltac:(reflexivity)) as (_ & _ & Hanon & _).
  rewrite (Hanon ltac:(reflexivity)). reflexivity.
Defined.

(** ** The statements of [resolveHandle] *)

Lemma bind_run {A B} (m : M A) (k : A -> M B) (st : state) :
  bind m k st
  = match m st with
    | (Normal a, st') => k a st'
    | (Throw e, st') => (Throw e, st')
    | (OutOfFuel, st') => (OutOfFuel, st')
    end.
Proof. reflexivity. Qed.

Lemma bind_normal {A B} (m : M A) (k : A -> M B) (st st' : state) (a : A) :
  m st = (Normal a, st') -> bind m k st = k a st'.
Proof. intros Hm. by rewrite bind_run, Hm. Qed.

Lemma steady_bind {A B} (m : M A) (k : A -> M B) :
  steady m -> (forall a, steady (k a)) -> steady (bind m k).
Proof.
  intros Hm Hk st. rewrite bind_run.
  destruct (Hm st) as [Hfuel Hvis]. destruct (m st) as [[a|e|] st']; simpl in *.
  - destruct (Hk a st') as [Hfuel' Hvis']. split; [done | congruence].
  - split; [discriminate | done].
  - done.
Qed.

(** [addInfo] on a function already resolved. *)
Lemma addInfo_seen (rt : runtime) (fn : value) (st : state) :
  fn ∈ resolvedFns st -> addInfo rt fn st = (Normal None, st).
Proof. intros Hin. unfold addInfo. apply seen_iff in Hin. by rewrite Hin. Qed.

(** [addInfo] on a function not resolved before. *)
Lemma addInfo_fresh (rt : runtime) (fn : value) (st : state) :
  fn ∉ resolvedFns st ->
  addInfo rt fn st
  = match functionInfo rt fn with
    | Normal i =>
        (Normal (Some (length (resolved st))),
         mkState (visited st) (resolvedFns st ++ [fn]) (resolved st ++ [i]) (addInfo_type st))
    | Throw e =>
        (Throw e, mkState (visited st) (resolvedFns st ++ [fn]) (resolved st) (addInfo_type st))
    | OutOfFuel =>
        (OutOfFuel, mkState (visited st) (resolvedFns st ++ [fn]) (resolved st) (addInfo_type st))
    end.
Proof.
  intros Hnew. unfold addInfo. apply seen_false_iff in Hnew. rewrite Hnew.
  rewrite bind_run. simpl. by destruct (functionInfo rt fn).
Qed.

Lemma steady_addInfo (rt : runtime) (fn : value) : steady (addInfo rt fn).
Proof.
  intros st. destruct (decide (fn ∈ resolvedFns st)) as [Hin|Hnew].
  - rewrite addInfo_seen by done. by split.
  - rewrite addInfo_fresh by done.
    pose proof (functionInfo_never_out_of_fuel rt fn) as Hfuel.
    destruct (functionInfo rt fn); simpl; by split.
Qed.

Lemma steady_assign (r : option nat) (upd : info -> info) : steady (assign r upd).
Proof. intros st. destruct r; simpl; by split. Qed.

Lemma steady_ret {A} (a : A) : steady (ret a).
Proof. intros st. by split. Qed.

Lemma steady_set_addInfo_type (t : string) : steady (set_addInfo_type t).
Proof. intros st. by split. Qed.

Lemma steady_processNode (rt : runtime) (next : obj) : steady (processNode rt next).
Proof.
  unfold processNode.
  destruct (negb (isFunction (_repeat next)) && negb (isFunction (_wrappedCallback next))
            && negb (bool_decide (is_Some (_onTimeout next)))).
  - apply steady_ret.
  - apply steady_bind; [apply steady_addInfo|]. intros r.
    apply steady_bind; [apply steady_assign|]. intros _. apply steady_assign.
Qed.

Lemma steady_addHandleFn (rt : runtime) (h : list (string * value)) (key : string) :
  steady (addHandleFn rt h key).
Proof.
  unfold addHandleFn. destruct (negb (isFunction (getField h key))); [apply steady_ret|].
  apply steady_bind; [apply steady_addInfo|]. intros r.
  destruct (truthy (getField h "fd")); [|apply steady_ret].
  apply steady_bind; [apply steady_assign|]. intros _.
  destruct (String.eqb key "onconnection"); [apply steady_assign|].
  destruct (String.eqb key "onread"); [apply steady_assign|apply steady_set_addInfo_type].
Qed.

Lemma steady_forEach {A} (f : A -> M unit) (l : list A) :
  (forall x, steady (f x)) -> steady (forEach f l).
Proof.
  intros Hf. induction l as [|x l IH]; simpl; [apply steady_ret|].
  apply steady_bind; [apply Hf | intros _; apply IH].
Qed.

Lemma steady_walkSocket (rt : runtime) (h : option (list (string * value))) :
  steady (walkSocket rt h).
Proof.
  destruct h as [o|]; simpl; [|apply steady_ret].
  apply steady_forEach. intros key. apply steady_addHandleFn.
Qed.

(** ** The walk along the idle list *)

Section Walk.
Variable rt : runtime.
Variable heap : gmap objref obj.

Lemma walk_end (fuel : nat) (st : state) :
  walkIdleList rt heap (S fuel) None st = (Normal tt, st).
Proof. reflexivity. Qed.

Lemma walk_stop (fuel : nat) (n : objref) (st : state) :
  n ∈ visited st -> walkIdleList rt heap (S fuel) (Some n) st = (Normal tt, st).
Proof. intros Hin. simpl. unfold wasVisited. apply seen_iff in Hin. by rewrite Hin. Qed.

Lemma walk_step (fuel : nat) (n : objref) (st : state) :
  n ∉ visited st ->
  walkIdleList rt heap (S fuel) (Some n) st
  = match processNode rt (getObj heap n)
            (mkState (visited st ++ [n]) (resolvedFns st) (resolved st) (addInfo_type st)) with
    | (Normal _, st') => walkIdleList rt heap fuel (_idleNext (getObj heap n)) st'
    | (Throw e, st') => (Throw e, st')
    | (OutOfFuel, st') => (OutOfFuel, st')
    end.
Proof.
  intros Hnew. simpl. unfold wasVisited. apply seen_false_iff in Hnew. rewrite Hnew.
  rewrite bind_run. simpl. by rewrite bind_run.
Qed.

(** The objects of the store the walk has not visited yet. *)
Lemma unvisited_shrinks (n : objref) (vs : list objref) :
  n ∈ (dom heap : gset nat) -> n ∉ vs ->
  (size ((dom heap : gset nat) ∖ list_to_set (vs ++ [n]))
   < size ((dom heap : gset nat) ∖ list_to_set vs))%nat.
Proof.
  intros Hdom Hnew. apply subset_size. rewrite list_to_set_app_L. simpl.
  assert (n ∉ (list_to_set vs : gset nat)) as Hn by (by rewrite elem_of_list_to_set).
  split.
  - apply difference_mono_l. apply union_subseteq_l.
  - intros Hsub. apply Hn.
    assert (n ∈ (dom heap : gset nat) ∖ list_to_set vs) as Hd
      by (apply elem_of_difference; done).
    apply Hsub in Hd. apply elem_of_difference in Hd as [_ Hd].
    exfalso. apply Hd. apply elem_of_union. right. apply elem_of_union. left.
    by apply elem_of_singleton.
Qed.

(** Fuel above the number of unvisited objects is never used up. *)
Lemma walk_fuel_suffices (fuel : nat) (next : option objref) (st : state) :
  (size ((dom heap : gset nat) ∖ list_to_set (visited st)) + 2 <= fuel)%nat ->
  fst (walkIdleList rt heap fuel next st) <> OutOfFuel.
Proof.
  revert next st. induction fuel as [|fuel IH]; intros next st Hfuel; [lia|].
  destruct next as [n|]; [|rewrite walk_end; discriminate].
  destruct (decide (n ∈ visited st)) as [Hin|Hnew]; [by rewrite walk_stop|].
  rewrite walk_step by done.
  set (st1 := mkState (visited st ++ [n]) _ _ _).
  destruct (steady_processNode rt (getObj heap n) st1) as [Hrun Hvis].
  destruct (processNode rt (getObj heap n) st1) as [[[]|e|] st2]; simpl in *;
    [|discriminate|done].
  unfold getObj. destruct (heap !! n) as [o|] eqn:Hlook; simpl.
  - apply IH. rewrite Hvis.
    assert (n ∈ (dom heap : gset nat)) as Hdom by (apply elem_of_dom; eauto).
    pose proof (unvisited_shrinks n (visited st) Hdom Hnew). lia.
  - destruct fuel as [|fuel]; [lia|]. rewrite walk_end. discriminate.
Qed.

(** Fuel beyond what a walk needs does not change it. *)
Lemma walk_more_fuel (fuel fuel' : nat) (next : option objref) (st : state) :
  fst (walkIdleList rt heap fuel next st) <> OutOfFuel ->
  (fuel <= fuel')%nat ->
  walkIdleList rt heap fuel' next st = walkIdleList rt heap fuel next st.
Proof.
  revert fuel' next st. induction fuel as [|fuel IH]; intros fuel' next st Hrun Hle.
  - by contradict Hrun.
  - destruct fuel' as [|fuel']; [lia|].
    destruct next as [n|]; [|by rewrite !walk_end].
    destruct (decide (n ∈ visited st)) as [Hin|Hnew]; [by rewrite !walk_stop|].
    rewrite !walk_step by done. rewrite walk_step in Hrun by done.
    destruct (processNode rt (getObj heap n) _) as [[[]|e|] st2]; [|done..].
    apply IH; [done | lia].
Qed.

(** No object enters [visited] twice. *)
Lemma walk_visited_NoDup (fuel : nat) (next : option objref) (st : state) :
  NoDup (visited st) -> NoDup (visited (snd (walkIdleList rt heap fuel next st))).
Proof.
  revert next st. induction fuel as [|fuel IH]; intros next st Hnd; [done|].
  destruct next as [n|]; [|by rewrite walk_end].
  destruct (decide (n ∈ visited st)) as [Hin|Hnew]; [by rewrite walk_stop|].
  rewrite walk_step by done.
  set (st1 := mkState (visited st ++ [n]) _ _ _).
  assert (NoDup (visited st1)) as Hnd1.
  { simpl. apply NoDup_app. split; [done|]. split; [|apply NoDup_singleton].
    intros x Hx Hxn. apply list_elem_of_singleton in Hxn. by subst. }
  destruct (steady_processNode rt (getObj heap n) st1) as [_ Hvis].
  destruct (processNode rt (getObj heap n) st1) as [[[]|e|] st2]; simpl in *.
  - apply IH. by rewrite Hvis.
  - by rewrite Hvis.
  - by rewrite Hvis.
Qed.

(** The fuel [resolveHandle] gives the walk is enough, from the empty
    [visited] list it starts with. *)
Lemma walk_from_handle_settled (handle : objref) (fuel : nat) :
  (walkFuel heap <= fuel)%nat ->
  let run := walkIdleList rt heap (walkFuel heap) (_idleNext (getObj heap handle)) initState in
  fst run <> OutOfFuel
  /\ walkIdleList rt heap fuel (_idleNext (getObj heap handle)) initState = run.
Proof.
  intros Hfuel run.
  assert (fst run <> OutOfFuel) as Hrun.
  { apply walk_fuel_suffices.
    assert (size ((dom heap : gset nat) ∖ list_to_set (visited initState)) <= size heap)%nat
      as Hle.
    { rewrite <- (size_dom (D := gset nat) heap). apply subseteq_size.
      apply subseteq_difference_l. reflexivity. }
    unfold walkFuel. lia. }
  split; [done | by apply walk_more_fuel].
Qed.

(** C6.  The walk along the idle list of any handle, and so of one whose
    list leads back into itself, comes to an end within the fuel
    [resolveHandle] gives it, more fuel changes nothing, and the nodes it
    visited are pairwise distinct: each node is visited at most once.  A
    node already visited ends the walk. *)
Theorem idle_list_walk_terminates (handle : objref) (fuel : nat) :
  (walkFuel heap <= fuel)%nat ->
  let run := walkIdleList rt heap (walkFuel heap) (_idleNext (getObj heap handle)) initState in
  fst run <> OutOfFuel
  /\ NoDup (visited (snd run))
  /\ walkIdleList rt heap fuel (_idleNext (getObj heap handle)) initState = run
  /\ resolveHandle rt heap handle <> OutOfFuel
  /\ (forall k n st, n ∈ visited st ->
        walkIdleList rt heap (S k) (Some n) st = (Normal tt, st)).
Proof.
  intros Hfuel run.
  destruct (walk_from_handle_settled handle fuel Hfuel) as [Hrun Hsame].
  fold run in Hrun, Hsame.
  split; [done|]. split; [apply walk_visited_NoDup; constructor|].
  split; [done|].
  split; [|intros k n st Hin; by apply walk_stop].
  unfold resolveHandle, resolveHandle_run. rewrite bind_run. fold run.
  destruct run as [[[]|e|] st1]; simpl in *; [|discriminate|done].
  destruct (steady_walkSocket rt (_handle (getObj heap handle)) st1) as [Hsock _].
  destruct (walkSocket rt (_handle (getObj heap handle)) st1) as [[[]|e|] st2];
    simpl in *; [discriminate|discriminate|done].
Qed.
End Walk.

Lemma idle_list_walk_terminates_witness :
  visited (snd (walkIdleList sampleRuntime heapCycle 7 (Some 1%nat) initState)) = [1; 2; 0]%nat
  /\ NoDup (visited (snd (walkIdleList sampleRuntime heapCycle (walkFuel heapCycle)
                            (_idleNext (getObj heapCycle 0)) initState)))
  /\ resolveHandle sampleRuntime heapCycle 0 <> OutOfFuel.
Proof.
  pose proof (idle_list_walk_terminates sampleRuntime heapCycle 0 7
                ltac:(vm_compute; lia)) as (_ & Hnd & Hsame & Hres & _).
  split; [vm_compute; reflexivity|]. split; [exact Hnd | exact Hres].
Defined.

(** ** Timer nodes *)

Lemma assign_last (upd : info -> info) (st : state) (i : info) (l : list info) :
  resolved st = l ++ [i] ->
  assign (Some (length l)) upd st
  = (Normal tt, mkState (visited st) (resolvedFns st) (l ++ [upd i]) (addInfo_type st)).
Proof.
  intros Hres. simpl. unfold modify. rewrite Hres.
  replace (length l) with (length l + 0)%nat by lia.
  by rewrite alter_app_r.
Qed.

(** The loop body in the words of the specification: the callback is the one
    the precedence picks, and the entry records the node's interval and the
    kind of the path taken. *)
Lemma processNode_precedence (rt : runtime) (next : obj) (st : state) :
  processNode rt next st
  = if isTimerNode next then
      (addedInfo <- addInfo rt (nodeCallback next) ;;
       assign addedInfo (set_msecs (_idleTimeout next)) ;;;
       assign addedInfo (set_type (pathKind (chosenPath next))))%js st
    else (Normal tt, st).
Proof.
  unfold processNode, isTimerNode, nodeCallback, chosenPath, pathKind.
  destruct (isFunction (_repeat next)), (isFunction (_wrappedCallback next)),
    (bool_decide (is_Some (_onTimeout next))); reflexivity.
Qed.

Lemma chosenPath_precedence (next : obj) :
  match chosenPath next with
  | RepeatPath => isFunction (_repeat next) = true /\ nodeCallback next = _repeat next
  | WrappedPath =>
      isFunction (_repeat next) = false /\ isFunction (_wrappedCallback next) = true
      /\ nodeCallback next = _wrappedCallback next
  | TimeoutPath =>
      isFunction (_repeat next) = false /\ isFunction (_wrappedCallback next) = false
      /\ (forall v, _onTimeout next = Some v -> nodeCallback next = v)
  end.
Proof.
  unfold nodeCallback, chosenPath.
  destruct (isFunction (_repeat next)) eqn:Hr; [done|].
  destruct (isFunction (_wrappedCallback next)) eqn:Hw; [done|].
  simpl. repeat split. by intros v ->.
Qed.

Lemma processNode_skip (rt : runtime) (next : obj) (st : state) :
  isTimerNode next = false -> processNode rt next st = (Normal tt, st).
Proof. intros Hq. by rewrite processNode_precedence, Hq. Qed.

Lemma processNode_timer (rt : runtime) (next : obj) (st : state) (i : info) :
  isTimerNode next = true ->
  nodeCallback next ∉ resolvedFns st ->
  functionInfo rt (nodeCallback next) = Normal i ->
  processNode rt next st
  = (Normal tt,
     mkState (visited st) (resolvedFns st ++ [nodeCallback next])
       (resolved st ++ [timerEntry i next]) (addInfo_type st)).
Proof.
  intros Hq Hnew Hi. rewrite processNode_precedence, Hq.
  erewrite bind_normal; [|rewrite addInfo_fresh by done; rewrite Hi; reflexivity].
  erewrite bind_normal; [|by apply assign_last].
  erewrite assign_last; [|reflexivity]. reflexivity.
Qed.

Lemma processNode_seen (rt : runtime) (next : obj) (st : state) :
  isTimerNode next = true ->
  nodeCallback next ∈ resolvedFns st ->
  processNode rt next st = (Throw (TypeError "Cannot set property of undefined"), st).
Proof.
  intros Hq Hseen. rewrite processNode_precedence, Hq.
  erewrite bind_normal; [|by apply addInfo_seen]. reflexivity.
Qed.

Section Chain.
Variable rt : runtime.
Variable heap : gmap objref obj.

(** A walk over a run of unvisited nodes whose callbacks are new, pairwise
    distinct and resolvable. *)
Lemma walk_chain (ns : list objref) :
  forall (fuel : nat) (start stop : option objref) (st : state),
    linked heap start ns stop ->
    NoDup (visited st ++ ns) ->
    (stop = None \/ exists m, stop = Some m /\ m ∈ visited st ++ ns) ->
    NoDup (resolvedFns st ++ timerCallbacks (map (getObj heap) ns)) ->
    Forall (resolvable rt) (timerCallbacks (map (getObj heap) ns)) ->
    (length ns < fuel)%nat ->
    walkIdleList rt heap fuel start st
    = (Normal tt,
       mkState (visited st ++ ns)
         (resolvedFns st ++ timerCallbacks (map (getObj heap) ns))
         (resolved st ++ timerEntries rt (map (getObj heap) ns))
         (addInfo_type st)).
Proof.
  induction ns as [|n ns IH]; intros fuel start stop st Hlink Hnd Hstop Hfns Hres Hfuel.
  - destruct fuel as [|fuel]; [simpl in Hfuel; lia|].
    simpl in Hlink. subst start.
    destruct Hstop as [->|(m & -> & Hm)].
    + rewrite walk_end. unfold timerCallbacks. simpl. rewrite !app_nil_r. by destruct st.
    + rewrite app_nil_r in Hm. rewrite walk_stop by done.
      unfold timerCallbacks. simpl. rewrite !app_nil_r. by destruct st.
  - destruct fuel as [|fuel]; [simpl in Hfuel; lia|].
    destruct Hlink as [-> Hlink].
    assert (n ∉ visited st) as Hnew.
    { apply NoDup_app in Hnd as (_ & Hdisj & _). intros Hin.
      apply (Hdisj n Hin). left. }
    rewrite walk_step by done.
    set (st1 := mkState (visited st ++ [n]) _ _ _).
    assert (NoDup (visited st1 ++ ns)) as Hnd1 by (simpl; by rewrite <- app_assoc).
    assert (stop = None \/ exists m, stop = Some m /\ m ∈ visited st1 ++ ns) as Hstop1.
    { destruct Hstop as [->|(m & -> & Hm)]; [by left|right].
      exists m. split; [done|]. simpl. by rewrite <- app_assoc. }
    simpl in Hfuel. simpl map in *. unfold timerCallbacks in *. simpl in Hfns, Hres |- *.
    destruct (isTimerNode (getObj heap n)) eqn:Hq.
    + simpl in Hfns, Hres. apply Forall_cons in Hres as [[i Hi] Hres].
      assert (nodeCallback (getObj heap n) ∉ resolvedFns st1) as Hfresh.
      { apply NoDup_app in Hfns as (_ & Hdisj & _). intros Hin.
        apply (Hdisj _ Hin). left. }
      rewrite (processNode_timer rt _ st1 i Hq Hfresh Hi). rewrite Hi.
      erewrite IH; [| exact Hlink | exact Hnd1 | exact Hstop1 | | exact Hres | lia].
      * simpl. by rewrite <- !app_assoc.
      * simpl. by rewrite <- app_assoc.
    + rewrite processNode_skip by done.
      erewrite IH; [| exact Hlink | exact Hnd1 | exact Hstop1 | exact Hfns | exact Hres | lia].
      simpl. by rewrite <- app_assoc.
Qed.

(** Every entry of [timerEntries] carries its node's callback, interval and
    kind. *)
Lemma timerEntries_fields (nodes : list obj) :
  Forall (resolvable rt) (timerCallbacks nodes) ->
  Forall2 (fun next e =>
             fn e = nodeCallback next /\ msecs e = Some (_idleTimeout next)
             /\ type e = Some (pathKind (chosenPath next)) /\ fd e = None)
    (List.filter isTimerNode nodes) (timerEntries rt nodes).
Proof.
  unfold timerCallbacks. induction nodes as [|next nodes IH]; intros Hres; simpl.
  - constructor.
  - simpl in Hres. destruct (isTimerNode next); [|by apply IH].
    simpl in Hres. apply Forall_cons in Hres as [[i Hi] Hres]. rewrite Hi.
    constructor; [|by apply IH].
    apply functionInfo_fn in Hi as (Hfn & _ & _ & Hfd). simpl. done.
Qed.

(** C3.  On a handle without a socket record whose idle list runs through
    the nodes [ns], with pairwise distinct resolvable callbacks,
    [resolveHandle] returns one entry per qualifying node, in list order.
    The callback of a node is its [_repeat] when that is a function, else
    its [_wrappedCallback] when that is a function, else its [_onTimeout];
    the entry's kind is [setInterval] on the first two paths and
    [setTimeout] on the third, and its [msecs] is the node's
    [_idleTimeout] on every path. *)
Theorem timer_nodes_resolved_by_precedence (handle : objref) (ns : list objref)
    (stop : option objref) :
  linked heap (_idleNext (getObj heap handle)) ns stop ->
  NoDup ns ->
  (stop = None \/ exists m, stop = Some m /\ m ∈ ns) ->
  _handle (getObj heap handle) = None ->
  NoDup (timerCallbacks (map (getObj heap) ns)) ->
  Forall (resolvable rt) (timerCallbacks (map (getObj heap) ns)) ->
  resolveHandle rt heap handle = Normal (timerEntries rt (map (getObj heap) ns))
  /\ Forall2 (fun next e =>
                fn e = pathCallback next (chosenPath next)
                /\ msecs e = Some (_idleTimeout next)
                /\ type e = Some (pathKind (chosenPath next)) /\ fd e = None)
       (List.filter isTimerNode (map (getObj heap) ns))
       (timerEntries rt (map (getObj heap) ns))
  /\ (forall next st, processNode rt next st
        = if isTimerNode next then
            (addedInfo <- addInfo rt (pathCallback next (chosenPath next)) ;;
             assign addedInfo (set_msecs (_idleTimeout next)) ;;;
             assign addedInfo (set_type (pathKind (chosenPath next))))%js st
          else (Normal tt, st)).
Proof.
  intros Hlink Hnd Hstop Hsock Hfns Hres.
  split; [|split; [by apply timerEntries_fields | apply processNode_precedence]].
  set (fuel := (walkFuel heap `max` S (length ns))%nat).
  assert (walkIdleList rt heap fuel (_idleNext (getObj heap handle)) initState
          = (Normal tt,
             mkState ns (timerCallbacks (map (getObj heap) ns))
               (timerEntries rt (map (getObj heap) ns)) None)) as Hwalk.
  { erewrite walk_chain; [reflexivity | exact Hlink | exact Hnd | exact Hstop
                         | exact Hfns | exact Hres | unfold fuel; lia]. }
  destruct (walk_from_handle_settled rt heap handle fuel ltac:(unfold fuel; lia))
    as [_ Hsame].
  unfold resolveHandle, resolveHandle_run. rewrite bind_run.
  rewrite <- Hsame, Hwalk, Hsock. reflexivity.
Qed.
End Chain.

(** Scenario A: a list of three nodes where only the second is a timer. *)
Lemma timer_nodes_resolved_by_precedence_witness :
  exists e, resolveHandle sampleRuntime heapScenarioA 0 = Normal [e]
    /\ fn e = VFunction 0 /\ type e = Some type_setTimeout /\ msecs e = Some (VNumber 100).
Proof.
  destruct (timer_nodes_resolved_by_precedence sampleRuntime heapScenarioA 0 [1; 2; 3]%nat None)
    as (Hres & _ & _).
  - vm_compute. repeat split.
  - apply (bool_decide_unpack _). vm_compute. reflexivity.
  - by left.
  - reflexivity.
  - apply (bool_decide_unpack _). vm_compute. reflexivity.
  - repeat constructor. eexists. vm_compute. reflexivity.
  - eexists. split; [rewrite Hres; vm_compute; reflexivity|]. simpl. repeat split.
Defined.

(** ** The handle set resolver *)

Lemma pushAll_app (resolved resolvedHandles : list info) :
  pushAll resolved resolvedHandles = resolvedHandles ++ resolved.
Proof.
  unfold pushAll. revert resolvedHandles.
  induction resolved as [|h resolved IH]; intros acc; simpl.
  - by rewrite app_nil_r.
  - rewrite IH. by rewrite <- app_assoc.
Qed.

Lemma resolveHandles_from_collect (rt : runtime) (heap : gmap objref obj)
    (handles : list objref) (acc : list info) :
  resolveHandles_from rt heap handles acc
  = match collect (map (resolveHandle rt heap) handles) with
    | Normal rs => Normal (acc ++ rs)
    | other => other
    end.
Proof.
  revert acc. induction handles as [|h handles IH]; intros acc; simpl.
  - by rewrite app_nil_r.
  - destruct (resolveHandle rt heap h) as [r|e|]; [|done..].
    rewrite IH, pushAll_app.
    destruct (collect (map (resolveHandle rt heap) handles)); [|done..].
    by rewrite app_assoc.
Qed.

Lemma collect_normal (rs : list (list info)) : collect (map Normal rs) = Normal (concat rs).
Proof. induction rs as [|r rs IH]; simpl; [done|]. by rewrite IH. Qed.

(** C9.  [resolveHandles], and [activeHandles] over the same handles, return
    the results of [resolveHandle] on each handle, concatenated in input
    order; the first handle on which [resolveHandle] does not return decides
    otherwise.  The empty input gives the empty list, and nothing is removed
    across handles. *)
Theorem resolveHandles_concatenates (rt : runtime) (heap : gmap objref obj)
    (handles : list objref) (rs : list (list info)) :
  map (resolveHandle rt heap) handles = map Normal rs ->
  resolveHandles rt heap handles = Normal (concat rs)
  /\ activeHandles rt heap handles = Normal (concat rs)
  /\ resolveHandles rt heap handles = collect (map (resolveHandle rt heap) handles)
  /\ resolveHandles rt heap [] = Normal []
  /\ activeHandles rt heap [] = Normal [].
Proof.
  intros Hrs.
  assert (resolveHandles rt heap handles = collect (map (resolveHandle rt heap) handles))
    as Hcollect.
  { unfold resolveHandles. rewrite resolveHandles_from_collect.
    by destruct (collect (map (resolveHandle rt heap) handles)). }
  assert (resolveHandles rt heap handles = Normal (concat rs)) as Hconcat
    by (by rewrite Hcollect, Hrs, collect_normal).
  split; [done|]. split; [|by repeat split].
  unfold activeHandles. destruct handles as [|h handles]; simpl; [|done].
  destruct rs; [done | discriminate].
Qed.

(** Scenario C: two handles whose timers run the same function give two
    entries for it. *)
Lemma resolveHandles_concatenates_witness :
  exists e, resolveHandle sampleRuntime heapTwoHandles 0 = Normal [e]
    /\ resolveHandle sampleRuntime heapTwoHandles 1 = Normal [e]
    /\ resolveHandles sampleRuntime heapTwoHandles [0; 1]%nat = Normal [e; e]
    /\ fn e = VFunction 0.
Proof.
  eexists. split; [vm_compute; reflexivity|]. split; [vm_compute; reflexivity|].
  split; [|reflexivity].
  refine (proj1 (resolveHandles_concatenates sampleRuntime heapTwoHandles [0; 1]%nat
                   [[_]; [_]] _)).
  vm_compute. reflexivity.
Defined.

(** ** Socket records *)

Lemma preserves_bind {A B} (I : state -> Prop) (m : M A) (k : A -> M B) :
  preserves I m -> (forall a, preserves I (k a)) -> preserves I (bind m k).
Proof.
  intros Hm Hk st Hst. rewrite bind_run. specialize (Hm st Hst).
  destruct (m st) as [[a|e|] st']; simpl in *; [by apply Hk | done | done].
Qed.

Lemma preserves_ret {A} (I : state -> Prop) (a : A) : preserves I (ret a).
Proof. by intros st Hst. Qed.

Lemma preserves_forEach {A} (I : state -> Prop) (f : A -> M unit) (l : list A) :
  (forall x, x ∈ l -> preserves I (f x)) -> preserves I (forEach f l).
Proof.
  induction l as [|x l IH]; intros Hf; simpl; [apply preserves_ret|].
  apply preserves_bind; [apply Hf; left|].
  intros _. apply IH. intros y Hy. apply Hf. by right.
Qed.

(** What [addInfo] leaves on [resolved]: nothing, or one entry fresh from
    [functionInfo]. *)
Lemma addInfo_resolved (rt : runtime) (v : value) (st : state) :
  exists news,
    resolved (snd (addInfo rt v st)) = resolved st ++ news
    /\ Forall (fun e => fn e = v /\ msecs e = None /\ type e = None /\ fd e = None) news
    /\ addInfo_type (snd (addInfo rt v st)) = addInfo_type st.
Proof.
  destruct (decide (v ∈ resolvedFns st)) as [Hin|Hnew].
  - rewrite addInfo_seen by done. exists []. by rewrite app_nil_r.
  - rewrite addInfo_fresh by done. destruct (functionInfo rt v) as [i|e|] eqn:Hi; simpl.
    + exists [i]. split; [done|]. split; [|done].
      constructor; [by apply functionInfo_fn in Hi | constructor].
    + exists []. by rewrite app_nil_r.
    + exists []. by rewrite app_nil_r.
Qed.

Lemma preserves_addInfo (P : info -> Prop) (rt : runtime) (v : value) :
  (forall e, msecs e = None -> type e = None -> fd e = None -> P e) ->
  preserves (fun st => Forall P (resolved st)) (addInfo rt v).
Proof.
  intros HP st Hst. destruct (addInfo_resolved rt v st) as (news & -> & Hnews & _).
  apply Forall_app. split; [done|].
  eapply Forall_impl; [exact Hnews|]. intros e (_ & Hm & Ht & Hf). by apply HP.
Qed.

Lemma preserves_assign (P : info -> Prop) (r : option nat) (upd : info -> info) :
  (forall e, P e -> P (upd e)) ->
  preserves (fun st => Forall P (resolved st)) (assign r upd).
Proof.
  intros Hupd st Hst. destruct r as [i|]; simpl; [|done].
  apply Forall_alter; [done|]. intros e _. apply Hupd.
Qed.

Lemma preserves_processNode (rt : runtime) (next : obj) :
  preserves (fun st => Forall timerShaped (resolved st)) (processNode rt next).
Proof.
  intros st Hst. rewrite processNode_precedence.
  destruct (isTimerNode next); [|done]. revert st Hst.
  apply (preserves_bind (fun st => Forall timerShaped (resolved st))).
  - apply preserves_addInfo. intros e _ Ht Hf. split; [done | by left].
  - intros r. apply preserves_bind; [|intros _]; apply preserves_assign.
    + intros e [Hf Ht]. by split.
    + intros e [Hf _]. split; [done|]. simpl. right.
      destruct (chosenPath next); simpl; [left | left | right]; reflexivity.
Qed.

Lemma preserves_walkIdleList (rt : runtime) (heap : gmap objref obj) (fuel : nat)
    (next : option objref) :
  preserves (fun st => Forall timerShaped (resolved st)) (walkIdleList rt heap fuel next).
Proof.
  revert next. induction fuel as [|fuel IH]; intros next st Hst; [done|].
  destruct next as [n|]; [|done].
  destruct (decide (n ∈ visited st)) as [Hin|Hnew]; [by rewrite walk_stop|].
  rewrite walk_step by done.
  set (st1 := mkState (visited st ++ [n]) _ _ _).
  pose proof (preserves_processNode rt (getObj heap n) st1 Hst) as Hst2.
  destruct (processNode rt (getObj heap n) st1) as [[[]|e|] st2]; simpl in *;
    [by apply IH | done | done].
Qed.

Section FalsyDescriptor.
Variable rt : runtime.
Variable o : list (string * value).
Hypothesis Hfd : truthy (getField o "fd") = false.

(** With a falsy [fd] the socket branch only ever calls [addInfo]. *)
Lemma addHandleFn_plain (key : string) (st : state) :
  key ∈ keys o ->
  exists news,
    resolved (snd (addHandleFn rt o key st)) = resolved st ++ news
    /\ Forall (plainSocketEntry o) news
    /\ addInfo_type (snd (addHandleFn rt o key st)) = addInfo_type st.
Proof.
  intros Hkey. unfold addHandleFn.
  destruct (isFunction (getField o key)); simpl;
    [|exists []; by rewrite app_nil_r].
  rewrite bind_run, Hfd.
  destruct (addInfo_resolved rt (getField o key) st) as (news & Hres & Hnews & Htype).
  exists news.
  assert (Forall (plainSocketEntry o) news) as Hplain.
  { eapply Forall_impl; [exact Hnews|]. intros e (Hfn & Hm & Ht & Hf).
    repeat split; try done. by exists key. }
  destruct (addInfo rt (getField o key) st) as [[r|e|] st']; simpl in *; done.
Qed.

Lemma forEach_addHandleFn_plain (ks : list string) (st : state) :
  (forall k, k ∈ ks -> k ∈ keys o) ->
  exists news,
    resolved (snd (forEach (addHandleFn rt o) ks st)) = resolved st ++ news
    /\ Forall (plainSocketEntry o) news
    /\ addInfo_type (snd (forEach (addHandleFn rt o) ks st)) = addInfo_type st.
Proof.
  revert st. induction ks as [|k ks IH]; intros st Hks; simpl.
  - exists []. by rewrite app_nil_r.
  - rewrite bind_run.
    destruct (addHandleFn_plain k st ltac:(apply Hks; left)) as (n1 & Hr1 & Hp1 & Ht1).
    destruct (addHandleFn rt o k st) as [[[]|e|] st1]; simpl in *; [|by exists n1..].
    destruct (IH st1 ltac:(intros k' Hk'; apply Hks; by right)) as (n2 & Hr2 & Hp2 & Ht2).
    exists (n1 ++ n2). rewrite Hr2, Hr1, Ht2, Ht1, app_assoc.
    split; [done|]. split; [|done]. apply Forall_app. by split.
Qed.

(** C10.  When the socket record's [fd] is falsy, [0] included, the socket
    branch leaves each entry it adds as [functionInfo] returned it, with no
    [fd] and no kind, whether or not it runs to its end; so no entry
    [resolveHandle] returns carries an [fd], or the kind of a listener or
    of a connection. *)
Theorem falsy_descriptor_adds_plain_entries (heap : gmap objref obj) (handle : objref) :
  _handle (getObj heap handle) = Some o ->
  let timers :=
    snd (walkIdleList rt heap (walkFuel heap) (_idleNext (getObj heap handle)) initState) in
  (forall st, exists news,
      resolved (snd (walkSocket rt (Some o) st)) = resolved st ++ news
      /\ Forall (plainSocketEntry o) news
      /\ addInfo_type (snd (walkSocket rt (Some o) st)) = addInfo_type st)
  /\ (forall l, resolveHandle rt heap handle = Normal l ->
        (exists news, l = resolved timers ++ news /\ Forall (plainSocketEntry o) news)
        /\ Forall (fun e => fd e = None /\ type e <> Some type_net_connection
                            /\ type e <> Some type_net_client_connection) l).
Proof.
  intros Hsock timers. split.
  - intros st. simpl. by apply forEach_addHandleFn_plain.
  - intros l. unfold resolveHandle, resolveHandle_run. rewrite bind_run, Hsock.
    fold timers.
    pose proof (preserves_walkIdleList rt heap (walkFuel heap)
                  (_idleNext (getObj heap handle)) initState ltac:(constructor)) as Htimers.
    fold timers in Htimers.
    destruct (walkIdleList rt heap (walkFuel heap) _ initState) as [[[]|e|] st1] eqn:Hwalk;
      subst timers; simpl in *; [|done..].
    destruct (forEach_addHandleFn_plain (keys o) st1 ltac:(done)) as (news & Hr & Hp & _).
    destruct (forEach (addHandleFn rt o) (keys o) st1) as [[[]|e|] st2]; simpl in *;
      [|done..].
    intros [= <-]. split; [by exists news|].
    rewrite Hr. apply Forall_app. split.
    + eapply Forall_impl; [exact Htimers|]. intros e [Hf Ht].
      split; [done|]. destruct Ht as [Ht|[Ht|Ht]]; rewrite Ht; by split.
    + eapply Forall_impl; [exact Hp|]. intros e (Hf & Ht & _).
      split; [done|]. rewrite Ht. by split.
Qed.
End FalsyDescriptor.

Lemma falsy_descriptor_adds_plain_entries_witness :
  truthy (getField [("fd", VNumber 0); ("onconnection", VFunction 0); ("onread", VFunction 1)]
            "fd") = false
  /\ exists e1 e2, resolveHandle sampleRuntime heapDescriptorZero 0 = Normal [e1; e2]
       /\ fd e1 = None /\ type e1 = None /\ fd e2 = None /\ type e2 = None.
Proof.
  split; [reflexivity|].
  destruct (falsy_descriptor_adds_plain_entries sampleRuntime
              [("fd", VNumber 0); ("onconnection", VFunction 0); ("onread", VFunction 1)]
              ltac:(reflexivity) heapDescriptorZero 0 ltac:(reflexivity)) as [_ Hall].
  eexists _, _. split; [vm_compute; reflexivity|].
  destruct (Hall _ ltac:(vm_compute; reflexivity)) as [_ Hplain].
  simpl. repeat split.
Defined.

(** With a truthy [fd], a callable field resolved for the first time gets the
    descriptor; [onconnection] and [onread] also get a kind.  Under any other
    key the kind goes to [addInfo.type], and the entry keeps none. *)
Lemma addHandleFn_descriptor (rt : runtime) (o : list (string * value)) (key : string)
    (st : state) (i : info) :
  isFunction (getField o key) = true ->
  truthy (getField o "fd") = true ->
  getField o key ∉ resolvedFns st ->
  functionInfo rt (getField o key) = Normal i ->
  addHandleFn rt o key st
  = (Normal tt,
     mkState (visited st) (resolvedFns st ++ [getField o key])
       (resolved st ++ [socketEntry key (getField o "fd") i])
       (if String.eqb key "onconnection" || String.eqb key "onread"
        then addInfo_type st else Some type_unknown)).
Proof.
  intros Hfn Hfd Hnew Hi. unfold addHandleFn, socketEntry. cbv zeta.
  rewrite Hfn, Hfd. cbn [negb]. cbv iota.
  erewrite bind_normal; [|rewrite addInfo_fresh by done; rewrite Hi; reflexivity].
  erewrite bind_normal; [|by apply assign_last].
  destruct (String.eqb key "onconnection"); simpl orb; cbv iota.
  - erewrite assign_last; reflexivity.
  - destruct (String.eqb key "onread"); cbv iota.
    + erewrite assign_last; reflexivity.
    + reflexivity.
Qed.

(** With a truthy [fd], a callable field whose function was resolved before
    makes the socket branch raise. *)
Lemma addHandleFn_seen_descriptor (rt : runtime) (o : list (string * value)) (key : string)
    (st : state) :
  isFunction (getField o key) = true ->
  truthy (getField o "fd") = true ->
  getField o key ∈ resolvedFns st ->
  addHandleFn rt o key st = (Throw (TypeError "Cannot set property of undefined"), st).
Proof.
  intros Hfn Hfd Hseen. unfold addHandleFn. cbv zeta.
  rewrite Hfn, Hfd. cbn [negb]. cbv iota.
  erewrite bind_normal; [|by apply addInfo_seen]. reflexivity.
Qed.

(** With a falsy [fd], such a field is passed over. *)
Lemma addHandleFn_seen_plain (rt : runtime) (o : list (string * value)) (key : string)
    (st : state) :
  truthy (getField o "fd") = false ->
  getField o key ∈ resolvedFns st ->
  addHandleFn rt o key st = (Normal tt, st).
Proof.
  intros Hfd Hseen. unfold addHandleFn. cbv zeta.
  destruct (isFunction (getField o key)); cbn [negb]; cbv iota; [|reflexivity].
  erewrite bind_normal; [|by apply addInfo_seen]. by rewrite Hfd.
Qed.

(** ** Records on which [resolveHandle] raises *)

(** C1.  Two timers on one idle list that run the same function, and a socket
    record with a descriptor that holds one function under two fields: on
    either, [resolveHandle] raises at the second discovery, where it writes
    to the [undefined] that [addInfo] returned, instead of returning the one
    entry. *)
Theorem same_callback_twice_raises :
  resolveHandle sampleRuntime heapSameCallbackTwice 0
  = Throw (TypeError "Cannot set property of undefined")
  /\ resolveHandle sampleRuntime heapSameCallbackTwoFields 0
     = Throw (TypeError "Cannot set property of undefined").
Proof. split; vm_compute; reflexivity. Qed.

(** C2.  [resolveHandle] raises on a socket record whose callback is
    anonymous and has no location, and on an idle list on which one function
    is reachable twice. *)
Theorem partially_populated_records_raise :
  (isFunction (getField [("onread", VFunction 3)] "onread") = true
   /\ is_anonymous sampleRuntime 3 = true
   /\ getFunctionLocation sampleRuntime 3 = None
   /\ resolveHandle sampleRuntime heapNoLocation 0
      = Throw (TypeError "Cannot read property 'inferredName' of undefined"))
  /\ (nodeCallback (getObj heapSameCallbackTwice 1) = nodeCallback (getObj heapSameCallbackTwice 2)
      /\ resolveHandle sampleRuntime heapSameCallbackTwice 0
         = Throw (TypeError "Cannot set property of undefined")).
Proof. repeat split; vm_compute; reflexivity. Qed.

(** C4.  A callable field other than [onconnection] and [onread] on a socket
    record with a descriptor gets the descriptor but no kind: ['unknown']
    ends up on [addInfo.type].  The listener of scenario B gets its kind. *)
Theorem unrecognized_socket_field_gets_no_kind :
  (exists e st,
      resolveHandle_run sampleRuntime heapUnknownField 0 initState = (Normal tt, st)
      /\ resolveHandle sampleRuntime heapUnknownField 0 = Normal [e]
      /\ fn e = VFunction 0 /\ fd e = Some (VNumber 7) /\ type e = None
      /\ type e <> Some type_unknown
      /\ addInfo_type st = Some type_unknown)
  /\ (exists e,
        resolveHandle sampleRuntime heapListener 0 = Normal [e]
        /\ fd e = Some (VNumber 7) /\ type e = Some type_net_connection).
Proof.
  split.
  - eexists _, _. split; [vm_compute; reflexivity|].
    split; [vm_compute; reflexivity|]. simpl. repeat split. discriminate.
  - eexists. split; [vm_compute; reflexivity|]. simpl. by split.
Qed.

(** ** The setInterval hook *)

Lemma versionGreaterEqualOneSixTwo_parsed (v : string) (major minor patch : Z) :
  parseVersion v = Some (major, minor, patch) ->
  versionGreaterEqualOneSixTwo v = (1 <=? major) && (6 <=? minor) && (2 <=? patch).
Proof.
  unfold parseVersion, versionGreaterEqualOneSixTwo, lt_number.
  destruct (split "." (slice1 v)) as [|a [|b [|c [|d ds]]]]; try discriminate.
  destruct (toNumber a) as [x|]; [|discriminate].
  destruct (toNumber b) as [y|]; [|discriminate].
  destruct (toNumber c) as [z|]; [|discriminate].
  intros [= -> -> ->]. simpl.
  destruct (Z.ltb_spec major 1), (Z.ltb_spec minor 6), (Z.ltb_spec patch 2),
    (Z.leb_spec 1 major), (Z.leb_spec 6 minor), (Z.leb_spec 2 patch);
    simpl; try reflexivity; lia.
Qed.

(** Below 1.6.2 the hook is installed. *)
Lemma hookSetInterval_below (v : string) (t : Z * Z * Z) (f : setIntervalFn) :
  parseVersion v = Some t -> atLeastOneSixTwo t = false ->
  hookSetInterval v f = setIntervalHook f.
Proof.
  destruct t as [[major minor] patch]. intros Hparse Hbelow.
  unfold hookSetInterval. rewrite (versionGreaterEqualOneSixTwo_parsed _ _ _ _ Hparse).
  unfold atLeastOneSixTwo in Hbelow.
  destruct (Z.leb_spec 1 major), (Z.leb_spec 6 minor), (Z.leb_spec 2 patch);
    simpl; try reflexivity.
  exfalso. revert Hbelow.
  destruct (Z.ltb_spec 1 major), (Z.eqb_spec major 1), (Z.ltb_spec 6 minor),
    (Z.eqb_spec minor 6); simpl; try discriminate; lia.
Qed.

(** The hook is left out exactly when each of the three numbers reaches its
    own bound. *)
Lemma hookSetInterval_componentwise (v : string) (major minor patch : Z) (f : setIntervalFn) :
  parseVersion v = Some (major, minor, patch) ->
  hookSetInterval v f = f <-> (1 <= major /\ 6 <= minor /\ 2 <= patch).
Proof.
  intros Hparse. unfold hookSetInterval.
  rewrite (versionGreaterEqualOneSixTwo_parsed _ _ _ _ Hparse).
  assert (forall g : setIntervalFn, setIntervalHook g <> g) as Hne.
  { intros g. induction g as [|g IH]; [discriminate | intros [= Hg]; by apply IH]. }
  destruct (Z.leb_spec 1 major), (Z.leb_spec 6 minor), (Z.leb_spec 2 patch); simpl;
    split; try done; try lia; intros Hf; by apply Hne in Hf.
Qed.

(** C5.  Version 2.0.0 is above 1.6.2, yet [versionGreaterEqualOneSixTwo]
    answers no, because its minor and patch numbers are below 6 and 2, and
    [hookSetInterval] replaces [timers.setInterval]; so it does on 1.7.0. *)
Theorem hook_installed_above_threshold :
  parseVersion "v2.0.0" = Some (2, 0, 0)
  /\ atLeastOneSixTwo (2, 0, 0) = true
  /\ versionGreaterEqualOneSixTwo "v2.0.0" = false
  /\ hookSetInterval "v2.0.0" nativeSetInterval = setIntervalHook nativeSetInterval
  /\ parseVersion "v1.7.0" = Some (1, 7, 0)
  /\ atLeastOneSixTwo (1, 7, 0) = true
  /\ hookSetInterval "v1.7.0" nativeSetInterval = setIntervalHook nativeSetInterval.
Proof. repeat split; vm_compute; reflexivity. Qed.

(** ** The report printer *)

Lemma splitLastColon_digits (d : Decimal.uint) :
  splitLastColon (NilEmpty.string_of_uint d) = None.
Proof. induction d as [|d IH|d IH|d IH|d IH|d IH|d IH|d IH|d IH|d IH|d IH]; simpl; by rewrite ?IH. Qed.

Lemma splitLastColon_unsigned (d : Decimal.uint) :
  splitLastColon (NilZero.string_of_uint d) = None.
Proof. destruct d; try apply splitLastColon_digits. reflexivity. Qed.

(** The digits of a number hold no colon. *)
Lemma splitLastColon_number (n : Z) : splitLastColon (numberToString n) = None.
Proof.
  unfold numberToString. destruct (Z.to_int n) as [d|d].
  - apply splitLastColon_unsigned.
  - simpl. by rewrite splitLastColon_unsigned.
Qed.

Lemma splitLastColon_app (before after : string) :
  splitLastColon after = None ->
  splitLastColon (before +:+ String ":" after) = Some (before, after).
Proof.
  intros Hfree. induction before as [|a before IH]; simpl.
  - by rewrite Hfree.
  - by rewrite IH.
Qed.

Lemma numberToString_inj (n m : Z) : numberToString n = numberToString m -> n = m.
Proof.
  unfold numberToString. intros Heq. apply DecimalZ.to_int_inj.
  assert (forall z, NilZero.int_of_string (NilZero.string_of_int (Z.to_int z))
                    = Some (Z.to_int z)) as Hback.
  { intros z. apply NilZero.isi; destruct z; simpl; try discriminate;
      intros [= Hnil]; by apply DecimalPos.Unsigned.to_uint_nonnil in Hnil. }
  pose proof (Hback n) as Hn. rewrite Heq, Hback in Hn. by injection Hn.
Qed.

Lemma append_assoc (a b d : string) : (a +:+ b) +:+ d = a +:+ (b +:+ d).
Proof.
  induction a as [|x a IH]; [reflexivity|].
  change (String x ((a +:+ b) +:+ d) = String x (a +:+ (b +:+ d))). by rewrite IH.
Qed.

Lemma append_assoc_colon (a b d : string) :
  (a +:+ ":" +:+ b) +:+ String ":" d = a +:+ String ":" (b +:+ String ":" d).
Proof. rewrite !append_assoc. reflexivity. Qed.

(** The location text of an entry with a location, taken apart again. *)
Lemma locString_parts (h : info) (l : location) :
  loc h = Some l ->
  splitLastColon (locString h)
  = Some (file l +:+ ":" +:+ numberToString (line l), numberToString (column l))
  /\ splitLastColon (file l +:+ ":" +:+ numberToString (line l))
     = Some (file l, numberToString (line l)).
Proof.
  intros Hl. unfold locString. rewrite Hl. split.
  - change (file l +:+ ":" +:+ numberToString (line l) +:+ ":" +:+ numberToString (column l))
      with (file l +:+ String ":" (numberToString (line l) +:+ String ":" (numberToString (column l)))).
    replace (file l +:+ String ":" (numberToString (line l) +:+ String ":" (numberToString (column l))))
      with ((file l +:+ ":" +:+ numberToString (line l)) +:+ String ":" (numberToString (column l))).
    + apply splitLastColon_app, splitLastColon_number.
    + apply append_assoc_colon.
  - apply (splitLastColon_app (file l) (numberToString (line l))), splitLastColon_number.
Qed.

(** [print] keeps one count per location text; two entries share a count
    exactly when both have no location, or have the same file, line and
    column. *)
Theorem locString_same_place (h1 h2 : info) :
  locString h1 = locString h2 <-> samePlace h1 h2.
Proof.
  unfold samePlace. split.
  - intros Heq. destruct (loc h1) as [l1|] eqn:H1, (loc h2) as [l2|] eqn:H2.
    + destruct (locString_parts h1 l1 H1) as [Ha1 Hb1].
      destruct (locString_parts h2 l2 H2) as [Ha2 Hb2].
      rewrite Heq, Ha2 in Ha1. injection Ha1 as Hfl Hcol.
      rewrite Hfl, Hb1 in Hb2. injection Hb2 as Hfile Hline.
      repeat split; [congruence | apply numberToString_inj; congruence..].
    + destruct (locString_parts h1 l1 H1) as [Ha1 _].
      rewrite Heq in Ha1. unfold locString in Ha1. rewrite H2 in Ha1. discriminate.
    + destruct (locString_parts h2 l2 H2) as [Ha2 _].
      rewrite <- Heq in Ha2. unfold locString in Ha2. rewrite H1 in Ha2. discriminate.
    + done.
  - unfold locString. destruct (loc h1) as [l1|], (loc h2) as [l2|]; try done.
    intros (-> & -> & ->). done.
Qed.

(** [printed] holds, for each location text, the number of entries reported
    so far that have it, and nothing for a text not yet seen. *)
Lemma occurrences_snoc (s : string) (seen : list info) (h : info) :
  occurrences s (seen ++ [h])
  = (occurrences s seen + (if String.eqb (locString h) s then 1 else 0))%Z.
Proof.
  unfold occurrences. rewrite List.filter_app, length_app. simpl.
  destruct (String.eqb (locString h) s); simpl; lia.
Qed.

Lemma occurrences_nonneg (s : string) (seen : list info) : (0 <= occurrences s seen)%Z.
Proof. unfold occurrences. lia. Qed.

Section PrintLoop.
Variable rt : runtime.
Variable c : colors.

Lemma printLoop_report (hs seen : list info) (printed : gmap string Z) (log : list string) :
  (forall s, printed !! s
             = if (occurrences s seen =? 0)%Z then None else Some (occurrences s seen)) ->
  printLoop rt c hs printed log = log ++ reportFrom rt c seen hs.
Proof.
  revert seen printed log. induction hs as [|h hs IH]; intros seen printed log Hcount; simpl.
  - by rewrite app_nil_r.
  - rewrite (IH (seen ++ [h])).
    + rewrite <- app_assoc. simpl. do 2 f_equal.
      unfold printBlock, reportBlock, highlightString. rewrite Hcount.
      pose proof (occurrences_nonneg (locString h) seen) as Hpos.
      destruct (Z.eqb_spec (occurrences (locString h) seen) 0) as [Hz|Hnz]; [done|].
      unfold number_truthy. by rewrite (proj2 (Z.eqb_neq _ _) Hnz).
    + intros s. rewrite occurrences_snoc. unfold countPrinted.
      pose proof (occurrences_nonneg s seen) as Hpos.
      destruct (String.eqb_spec (locString h) s) as [->|Hne].
      * rewrite lookup_insert_eq, Hcount.
        destruct (Z.eqb_spec (occurrences s seen) 0) as [Hz|Hnz].
        -- rewrite Hz. reflexivity.
        -- unfold number_truthy. rewrite (proj2 (Z.eqb_neq _ _) Hnz). simpl.
           destruct (Z.eqb_spec (occurrences s seen + 1) 0); [lia | done].
      * rewrite lookup_insert_ne by done. rewrite Hcount. by rewrite Z.add_0_r.
Qed.

Lemma reportFrom_lookup (hs seen : list info) (i : nat) (h : info) :
  hs !! i = Some h ->
  reportFrom rt c seen hs !! i = Some (reportBlock rt c (seen ++ take i hs) h).
Proof.
  revert seen i. induction hs as [|h0 hs IH]; intros seen i Hi; [done|].
  destruct i as [|i]; simpl in *.
  - injection Hi as ->. by rewrite app_nil_r.
  - rewrite (IH _ _ Hi). by rewrite <- app_assoc.
Qed.

Lemma reportFrom_length (hs seen : list info) : length (reportFrom rt c seen hs) = length hs.
Proof. revert seen. induction hs as [|h hs IH]; intros seen; simpl; [done | by rewrite IH]. Qed.

(** When the handles resolve, [print] writes one block per entry, in order.
    The block of an entry shows its highlighted source when no earlier entry
    has the same location text, and ["Count: N. Source printed above"]
    otherwise, [N] being one more than the number of earlier entries with
    that text. *)
Theorem print_counts_repeated_locations (heap : gmap objref obj) (handles : list objref)
    (hs : list info) :
  activeHandles rt heap handles = Normal hs ->
  print rt c heap handles = (Normal tt, reportFrom rt c [] hs)
  /\ length (snd (print rt c heap handles)) = length hs
  /\ (forall i h, hs !! i = Some h ->
        snd (print rt c heap handles) !! i = Some (reportBlock rt c (take i hs) h)).
Proof.
  intros Hact. unfold print. rewrite Hact.
  rewrite (printLoop_report hs [] ∅ []); [|intros s; by rewrite lookup_empty].
  simpl. split; [done|]. split; [apply reportFrom_length|].
  intros i h Hi. by rewrite (reportFrom_lookup hs [] i h Hi).
Qed.
End PrintLoop.

(** ** Invariants of [resolveHandle] *)

Section Invariant.
Variable rt : runtime.
Variable I : state -> Prop.
Hypothesis I_addInfo : forall v, preserves I (addInfo rt v).
Hypothesis I_msecs : forall r v, preserves I (assign r (set_msecs v)).
Hypothesis I_type : forall r t, preserves I (assign r (set_type t)).
Hypothesis I_fd : forall r v, preserves I (assign r (set_fd v)).
Hypothesis I_visited : forall st n,
  I st -> I (mkState (visited st ++ [n]) (resolvedFns st) (resolved st) (addInfo_type st)).
Hypothesis I_addInfo_type : forall st t,
  I st -> I (mkState (visited st) (resolvedFns st) (resolved st) (Some t)).

Lemma invariant_processNode (next : obj) : preserves I (processNode rt next).
Proof.
  intros st Hst. rewrite processNode_precedence.
  destruct (isTimerNode next); [|done]. revert st Hst.
  apply (preserves_bind I); [apply I_addInfo|].
  intros r. apply preserves_bind; [apply I_msecs | intros _; apply I_type].
Qed.

Lemma invariant_walkIdleList (heap : gmap objref obj) (fuel : nat) (next : option objref) :
  preserves I (walkIdleList rt heap fuel next).
Proof.
  revert next. induction fuel as [|fuel IH]; intros next st Hst; [done|].
  destruct next as [n|]; [|done].
  destruct (decide (n ∈ visited st)) as [Hin|Hnew]; [by rewrite walk_stop|].
  rewrite walk_step by done.
  pose proof (invariant_processNode (getObj heap n) _ (I_visited st n Hst)) as Hst2.
  destruct (processNode rt (getObj heap n) _) as [[[]|e|] st2]; simpl in *;
    [by apply IH | done | done].
Qed.

Lemma invariant_addHandleFn (o : list (string * value)) (key : string) :
  preserves I (addHandleFn rt o key).
Proof.
  unfold addHandleFn. cbv zeta.
  destruct (negb (isFunction (getField o key))); [apply preserves_ret|].
  apply preserves_bind; [apply I_addInfo|]. intros r.
  destruct (truthy (getField o "fd")); [|apply preserves_ret].
  apply preserves_bind; [apply I_fd|]. intros _.
  destruct (String.eqb key "onconnection"); [apply I_type|].
  destruct (String.eqb key "onread"); [apply I_type|].
  intros st Hst. by apply I_addInfo_type.
Qed.

Lemma invariant_resolveHandle_run (heap : gmap objref obj) (handle : objref) :
  preserves I (resolveHandle_run rt heap handle).
Proof.
  apply preserves_bind; [apply invariant_walkIdleList|]. intros _.
  destruct (_handle (getObj heap handle)) as [o|]; simpl; [|apply preserves_ret].
  apply preserves_forEach. intros key _. apply invariant_addHandleFn.
Qed.
End Invariant.

(** What [addInfo] pushes is what [functionInfo] returned. *)
Lemma addInfo_pushes (rt : runtime) (v : value) (st : state) :
  (resolved (snd (addInfo rt v st)) = resolved st
   /\ (resolvedFns (snd (addInfo rt v st)) = resolvedFns st
       \/ ((v ∉ resolvedFns st)
           /\ resolvedFns (snd (addInfo rt v st)) = resolvedFns st ++ [v])))
  \/ (exists i, functionInfo rt v = Normal i /\ (v ∉ resolvedFns st)
        /\ resolved (snd (addInfo rt v st)) = resolved st ++ [i]
        /\ resolvedFns (snd (addInfo rt v st)) = resolvedFns st ++ [v]).
Proof.
  destruct (decide (v ∈ resolvedFns st)) as [Hin|Hnew].
  - rewrite addInfo_seen by done. left. split; [done | by left].
  - rewrite addInfo_fresh by done. destruct (functionInfo rt v) as [i|e|] eqn:Hi; simpl.
    + right. by exists i.
    + left. split; [done | by right].
    + left. split; [done | by right].
Qed.

Lemma functionInfo_name_nonempty (rt : runtime) (v : value) (i : info) :
  functionInfo rt v = Normal i -> name i <> "".
Proof.
  destruct v as [| | | | |f]; try discriminate. unfold functionInfo.
  destruct (is_anonymous rt f) eqn:Hanon.
  - destruct (getFunctionLocation rt f) as [l|]; simpl; [|discriminate].
    intros [= <-]. simpl. destruct (String.eqb_spec (inferredName l) ""); simpl;
      [discriminate | done].
  - intros [= <-]. simpl. unfold is_anonymous in Hanon.
    by destruct (String.eqb_spec (fn_name rt f) "").
Qed.

Lemma identifiedBy_functionInfo (rt : runtime) (v : value) (i : info) :
  functionInfo rt v = Normal i -> identifiedBy rt i.
Proof.
  intros Hi. destruct v as [| | | | |f]; try discriminate.
  exists f, i. apply functionInfo_fn in Hi as Hfn. destruct Hfn as [Hfn _]. done.
Qed.

Lemma preserves_identified_addInfo (rt : runtime) (v : value) :
  preserves (fun st => Forall (identifiedBy rt) (resolved st)) (addInfo rt v).
Proof.
  intros st Hst. destruct (addInfo_pushes rt v st) as [[-> _]|(i & Hi & _ & -> & _)]; [done|].
  apply Forall_app. split; [done|]. constructor; [|constructor].
  by eapply identifiedBy_functionInfo.
Qed.

Lemma entries_identified (rt : runtime) (heap : gmap objref obj) (handle : objref)
    (l : list info) :
  resolveHandle rt heap handle = Normal l -> Forall (identifiedBy rt) l.
Proof.
  unfold resolveHandle. intros Hres.
  pose proof (invariant_resolveHandle_run rt (fun st => Forall (identifiedBy rt) (resolved st))
                (preserves_identified_addInfo rt)
                (fun r v => preserves_assign (identifiedBy rt) r (set_msecs v) (fun e He => He))
                (fun r t => preserves_assign (identifiedBy rt) r (set_type t) (fun e He => He))
                (fun r v => preserves_assign (identifiedBy rt) r (set_fd v) (fun e He => He))
                (fun st n Hst => Hst) (fun st t Hst => Hst)
                heap handle initState ltac:(constructor)) as Hinv.
  destruct (resolveHandle_run rt heap handle initState) as [[[]|e|] st]; simpl in *;
    [|discriminate..].
  by injection Hres as <-.
Qed.

(** Every entry [resolveHandles] and [activeHandles] return belongs to a
    function: its identity fields are the ones [functionInfo] gives for that
    function, its name is not empty, and its location, when it has one, is
    the one [function-origin] reported with the line number raised by one. *)
Theorem resolved_entries_identified (rt : runtime) (heap : gmap objref obj)
    (handles : list objref) (l : list info) :
  activeHandles rt heap handles = Normal l ->
  Forall (fun e =>
            identifiedBy rt e /\ name e <> ""
            /\ exists f, fn e = VFunction f /\ source e = fn_toString rt f
                 /\ match loc e with
                    | Some l' =>
                        exists l0, getFunctionLocation rt f = Some l0
                          /\ file l' = file l0 /\ line l' = (line l0 + 1)%Z
                          /\ column l' = column l0
                    | None => getFunctionLocation rt f = None
                    end) l.
Proof.
  intros Hact.
  assert (Forall (identifiedBy rt) l) as Hid.
  { assert (forall hs acc l', Forall (identifiedBy rt) acc ->
              resolveHandles_from rt heap hs acc = Normal l' ->
              Forall (identifiedBy rt) l') as Hfrom.
    { induction hs as [|h hs IH]; intros acc l' Hacc; simpl.
      - by intros [= <-].
      - destruct (resolveHandle rt heap h) as [r|e|] eqn:Hr; [|discriminate..].
        apply IH. rewrite pushAll_app. apply Forall_app. split; [done|].
        by eapply entries_identified. }
    unfold activeHandles in Hact. destruct (length handles =? 0)%nat.
    - injection Hact as <-. constructor.
    - by eapply (Hfrom handles []). }
  eapply Forall_impl; [exact Hid|]. intros e He. split; [done|].
  destruct He as (f & i & Hfn & Hi & Hname & Hsrc & _ & Hloc).
  split; [rewrite Hname; by eapply functionInfo_name_nonempty|].
  exists f. split; [done|].
  apply functionInfo_returns in Hi as (_ & Hsrc' & Hloc' & _).
  split; [congruence|]. rewrite Hloc, Hloc'.
  destruct (getFunctionLocation rt f) as [l0|]; simpl; [|done].
  exists l0. done.
Qed.

(** One run of [resolveHandle] never returns two entries for the same
    function. *)
Theorem resolveHandle_entries_distinct (rt : runtime) (heap : gmap objref obj)
    (handle : objref) (l : list info) :
  resolveHandle rt heap handle = Normal l -> NoDup (fn <$> l).
Proof.
  unfold resolveHandle. intros Hres.
  set (J := fun st => NoDup (resolvedFns st)
                      /\ (fn <$> resolved st) `sublist_of` resolvedFns st).
  assert (forall r upd, (forall e, fn (upd e) = fn e) -> preserves J (assign r upd)) as Hassign.
  { intros r upd Hupd st [Hnd Hsub]. destruct r as [i|]; [|done].
    unfold J, assign, modify. cbn [snd resolved resolvedFns].
    split; [done|]. rewrite (list_fmap_alter fn upd id).
    - by rewrite list_alter_id.
    - apply Forall_forall. intros e _. apply Hupd. }
  assert (forall v, preserves J (addInfo rt v)) as HaddInfo.
  { intros v st [Hnd Hsub].
    assert (v ∉ resolvedFns st -> NoDup (resolvedFns st ++ [v])) as Hsnoc.
    { intros Hnew. apply NoDup_app. repeat split; [done | | apply NoDup_singleton].
      intros x Hx Hxv. apply list_elem_of_singleton in Hxv. by subst. }
    destruct (addInfo_pushes rt v st) as [[Hr [Hf|[Hnew Hf]]]|(i & Hi & Hnew & Hr & Hf)];
      unfold J; rewrite Hr, Hf.
    - done.
    - split; [by apply Hsnoc | by apply sublist_inserts_r].
    - split; [by apply Hsnoc|]. rewrite fmap_app. apply sublist_app; [done|]. simpl.
      by apply functionInfo_fn in Hi as [-> _]. }
  pose proof (invariant_resolveHandle_run rt J HaddInfo) as Hinv.
  specialize (Hinv (fun r v => Hassign r (set_msecs v) (fun e => eq_refl))
                   (fun r t => Hassign r (set_type t) (fun e => eq_refl))
                   (fun r v => Hassign r (set_fd v) (fun e => eq_refl))
                   (fun st n Hst => Hst) (fun st t Hst => Hst)
                   heap handle initState).
  destruct (resolveHandle_run rt heap handle initState) as [[[]|e|] st]; simpl in *;
    [|discriminate..].
  injection Hres as <-.
  destruct Hinv as [Hnd Hsub]; [split; [constructor | done]|].
  by eapply sublist_NoDup.
Qed.

(** ** The nodes a walk visits *)

Lemma walk_follows_links (rt : runtime) (heap : gmap objref obj) (fuel : nat) :
  forall (next : option objref) (st st' : state),
    walkIdleList rt heap fuel next st = (Normal tt, st') ->
    exists ns stop,
      visited st' = visited st ++ ns /\ linked heap next ns stop
      /\ (stop = None \/ exists m, stop = Some m /\ m ∈ visited st').
Proof.
  induction fuel as [|fuel IH]; intros next st st' Hrun; [discriminate|].
  destruct next as [n|].
  - destruct (decide (n ∈ visited st)) as [Hin|Hnew].
    + rewrite walk_stop in Hrun by done. injection Hrun as <-.
      exists [], (Some n). rewrite app_nil_r. repeat split. right. by exists n.
    + rewrite walk_step in Hrun by done.
      set (st1 := mkState (visited st ++ [n]) _ _ _) in Hrun.
      destruct (steady_processNode rt (getObj heap n) st1) as [_ Hvis].
      destruct (processNode rt (getObj heap n) st1) as [[[]|e|] st2]; [|discriminate..].
      destruct (IH _ _ _ Hrun) as (ns & stop & Hv & Hlink & Hstop).
      exists (n :: ns), stop. simpl in Hvis. rewrite Hv, Hvis, <- app_assoc.
      repeat split; [done|].
      destruct Hstop as [->|(m & -> & Hm)]; [by left|right].
      exists m. split; [done|]. by rewrite Hv, Hvis, <- app_assoc in Hm.
  - rewrite walk_end in Hrun. injection Hrun as <-.
    exists [], None. rewrite app_nil_r. repeat split. by left.
Qed.

(** When the walk returns, the nodes it visited are the run of [_idleNext]
    links that starts at [handle._idleNext] and goes on until the list ends
    or leads to a node of the run: no node off the links is looked at, and
    none on them is left out. *)
Theorem walk_visits_the_links (rt : runtime) (heap : gmap objref obj) (handle : objref)
    (st' : state) :
  walkIdleList rt heap (walkFuel heap) (_idleNext (getObj heap handle)) initState
  = (Normal tt, st') ->
  exists stop,
    linked heap (_idleNext (getObj heap handle)) (visited st') stop
    /\ (stop = None \/ exists m, stop = Some m /\ m ∈ visited st')
    /\ NoDup (visited st').
Proof.
  intros Hrun. destruct (walk_follows_links _ _ _ _ _ _ Hrun) as (ns & stop & Hv & Hlink & Hstop).
  simpl in Hv. subst ns. exists stop. split; [done|]. split; [done|].
  pose proof (walk_visited_NoDup rt heap (walkFuel heap) (_idleNext (getObj heap handle))
                initState ltac:(constructor)) as Hnd.
  by rewrite Hrun in Hnd.
Qed.

(** ** Socket records with a descriptor *)

Lemma addHandleFn_skip (rt : runtime) (o : list (string * value)) (key : string) (st : state) :
  isFunction (getField o key) = false -> addHandleFn rt o key st = (Normal tt, st).
Proof. intros Hfn. unfold addHandleFn. cbv zeta. by rewrite Hfn. Qed.

Lemma addHandleFn_fresh_plain (rt : runtime) (o : list (string * value)) (key : string)
    (st : state) (i : info) :
  isFunction (getField o key) = true ->
  truthy (getField o "fd") = false ->
  getField o key ∉ resolvedFns st ->
  functionInfo rt (getField o key) = Normal i ->
  addHandleFn rt o key st
  = (Normal tt,
     mkState (visited st) (resolvedFns st ++ [getField o key]) (resolved st ++ [i])
       (addInfo_type st)).
Proof.
  intros Hfn Hfd Hnew Hi. unfold addHandleFn. cbv zeta.
  rewrite Hfn, Hfd. cbn [negb]. cbv iota.
  erewrite bind_normal; [|rewrite addInfo_fresh by done; rewrite Hi; reflexivity].
  reflexivity.
Qed.

Section SocketRecord.
Variable rt : runtime.
Variable o : list (string * value).

Lemma forEach_addHandleFn_descriptor (ks : list string) :
  truthy (getField o "fd") = true ->
  forall st,
    NoDup (resolvedFns st ++ socketCallbacks o ks) ->
    Forall (resolvable rt) (socketCallbacks o ks) ->
    exists t,
      forEach (addHandleFn rt o) ks st
      = (Normal tt,
         mkState (visited st) (resolvedFns st ++ socketCallbacks o ks)
           (resolved st ++ socketEntries rt o ks) t).
Proof.
  intros Hfd. unfold socketCallbacks.
  induction ks as [|key ks IH]; intros st Hnd Hres; simpl in *.
  - exists (addInfo_type st). rewrite !app_nil_r. by destruct st.
  - rewrite bind_run. destruct (isFunction (getField o key)) eqn:Hfn.
    + apply Forall_cons in Hres as [[i Hi] Hres].
      assert (getField o key ∉ resolvedFns st) as Hnew.
      { apply NoDup_app in Hnd as (_ & Hdisj & _). intros Hin. apply (Hdisj _ Hin). left. }
      rewrite (addHandleFn_descriptor rt o key st i Hfn Hfd Hnew Hi), Hi.
      edestruct IH as [t Ht]; [| exact Hres | rewrite Ht].
      * simpl. by rewrite <- app_assoc.
      * exists t. simpl. by rewrite <- !app_assoc.
    + rewrite addHandleFn_skip by done. by apply IH.
Qed.

Lemma socketEntries_fields (ks : list string) :
  Forall (resolvable rt) (socketCallbacks o ks) ->
  Forall2 (fun key e =>
             fn e = getField o key /\ fd e = Some (getField o "fd") /\ msecs e = None
             /\ type e = (if String.eqb key "onconnection" then Some type_net_connection
                          else if String.eqb key "onread" then Some type_net_client_connection
                          else None))
    (List.filter (fun key => isFunction (getField o key)) ks) (socketEntries rt o ks).
Proof.
  unfold socketCallbacks. induction ks as [|key ks IH]; intros Hres; simpl in *.
  - constructor.
  - destruct (isFunction (getField o key)); [|by apply IH].
    apply Forall_cons in Hres as [[i Hi] Hres]. rewrite Hi.
    constructor; [|by apply IH].
    apply functionInfo_fn in Hi as (Hfn & Hm & Ht & _). unfold socketEntry.
    destruct (String.eqb key "onconnection"); [done|].
    destruct (String.eqb key "onread"); done.
Qed.

Lemma forEach_addHandleFn_keepFirst (ks : list string) :
  truthy (getField o "fd") = false ->
  Forall (resolvable rt) (socketCallbacks o ks) ->
  forall st, exists infos,
    forEach (addHandleFn rt o) ks st
    = (Normal tt,
       mkState (visited st)
         (resolvedFns st ++ keepFirst (resolvedFns st) (socketCallbacks o ks))
         (resolved st ++ infos) (addInfo_type st))
    /\ Forall2 (fun v i => functionInfo rt v = Normal i)
         (keepFirst (resolvedFns st) (socketCallbacks o ks)) infos.
Proof.
  intros Hfd. unfold socketCallbacks.
  induction ks as [|key ks IH]; intros Hres st; simpl in *.
  - exists []. rewrite !app_nil_r. split; [by destruct st | constructor].
  - rewrite bind_run. destruct (isFunction (getField o key)) eqn:Hfn.
    + apply Forall_cons in Hres as [[i Hi] Hres]. simpl.
      destruct (decide (getField o key ∈ resolvedFns st)) as [Hin|Hnew].
      * rewrite addHandleFn_seen_plain by done. by apply IH.
      * rewrite (addHandleFn_fresh_plain rt o key st i Hfn Hfd Hnew Hi).
        destruct (IH Hres (mkState (visited st) (resolvedFns st ++ [getField o key])
                             (resolved st ++ [i]) (addInfo_type st)))
          as (infos & Hrun & Hall).
        exists (i :: infos). rewrite Hrun. simpl. rewrite <- !app_assoc.
        split; [done | by constructor].
    + rewrite addHandleFn_skip by done. by apply IH.
Qed.
End SocketRecord.

Section ChainAndSocket.
Variable rt : runtime.
Variable heap : gmap objref obj.

(** The state the walk leaves on an idle list with pairwise distinct,
    resolvable callbacks. *)
Lemma walk_of_chain (handle : objref) (ns : list objref) (stop : option objref) :
  linked heap (_idleNext (getObj heap handle)) ns stop ->
  NoDup ns ->
  (stop = None \/ exists m, stop = Some m /\ m ∈ ns) ->
  NoDup (timerCallbacks (map (getObj heap) ns)) ->
  Forall (resolvable rt) (timerCallbacks (map (getObj heap) ns)) ->
  walkIdleList rt heap (walkFuel heap) (_idleNext (getObj heap handle)) initState
  = (Normal tt,
     mkState ns (timerCallbacks (map (getObj heap) ns))
       (timerEntries rt (map (getObj heap) ns)) None).
Proof.
  intros Hlink Hnd Hstop Hfns Hres.
  set (fuel := (walkFuel heap `max` S (length ns))%nat).
  destruct (walk_from_handle_settled rt heap handle fuel ltac:(unfold fuel; lia))
    as [_ Hsame].
  rewrite <- Hsame.
  erewrite walk_chain; [reflexivity | exact Hlink | exact Hnd | exact Hstop
                       | exact Hfns | exact Hres | unfold fuel; lia].
Qed.

(** A handle that is on an idle list and has a socket record with a truthy
    [fd], such as a socket with a timeout: when the callbacks of the timer
    nodes and of the record are pairwise distinct and resolvable,
    [resolveHandle] returns the timer entries in list order followed by one
    entry per callable field in key order.  A socket entry carries the
    descriptor and no interval; its kind is ['net connection'] under
    [onconnection], ['net client connection'] under [onread], and absent
    under any other key. *)
Theorem resolveHandle_timers_then_socket (handle : objref) (ns : list objref)
    (stop : option objref) (o : list (string * value)) :
  linked heap (_idleNext (getObj heap handle)) ns stop ->
  NoDup ns ->
  (stop = None \/ exists m, stop = Some m /\ m ∈ ns) ->
  _handle (getObj heap handle) = Some o ->
  truthy (getField o "fd") = true ->
  NoDup (timerCallbacks (map (getObj heap) ns) ++ socketCallbacks o (keys o)) ->
  Forall (resolvable rt) (timerCallbacks (map (getObj heap) ns) ++ socketCallbacks o (keys o)) ->
  resolveHandle rt heap handle
  = Normal (timerEntries rt (map (getObj heap) ns) ++ socketEntries rt o (keys o))
  /\ Forall2 (fun key e =>
                fn e = getField o key /\ fd e = Some (getField o "fd") /\ msecs e = None
                /\ type e = (if String.eqb key "onconnection" then Some type_net_connection
                             else if String.eqb key "onread"
                                  then Some type_net_client_connection
                             else None))
       (List.filter (fun key => isFunction (getField o key)) (keys o))
       (socketEntries rt o (keys o)).
Proof.
  intros Hlink Hnd Hstop Hsock Hfd Hfns Hres.
  apply Forall_app in Hres as [Hres1 Hres2].
  split; [|by apply socketEntries_fields].
  unfold resolveHandle, resolveHandle_run. rewrite bind_run.
  rewrite (walk_of_chain handle ns stop Hlink Hnd Hstop);
    [|by apply NoDup_app in Hfns as [? _]|done].
  rewrite Hsock. simpl.
  destruct (forEach_addHandleFn_descriptor rt o (keys o) Hfd
              (mkState ns (timerCallbacks (map (getObj heap) ns))
                 (timerEntries rt (map (getObj heap) ns)) None) Hfns Hres2) as [t ->].
  reflexivity.
Qed.

(** On a socket record whose [fd] is falsy and whose callable fields are
    resolvable, a handle that is on no idle list resolves without raising to
    one entry per distinct callable, in the order of first occurrence, each
    as [functionInfo] returned it: a function held under two fields is
    reported once. *)
Theorem socket_without_descriptor_deduplicates (handle : objref) (o : list (string * value)) :
  _idleNext (getObj heap handle) = None ->
  _handle (getObj heap handle) = Some o ->
  truthy (getField o "fd") = false ->
  Forall (resolvable rt) (socketCallbacks o (keys o)) ->
  exists infos,
    resolveHandle rt heap handle = Normal infos
    /\ Forall2 (fun v i => functionInfo rt v = Normal i)
         (keepFirst [] (socketCallbacks o (keys o))) infos
    /\ NoDup (keepFirst [] (socketCallbacks o (keys o))).
Proof.
  intros Hnext Hsock Hfd Hres.
  destruct (forEach_addHandleFn_keepFirst rt o (keys o) Hfd Hres initState)
    as (infos & Hrun & Hall).
  exists infos. split; [|split; [done|]].
  - unfold resolveHandle, resolveHandle_run. rewrite bind_run, Hnext, Hsock.
    unfold walkFuel. rewrite walk_end. simpl. by rewrite Hrun.
  - assert (forall l seen, NoDup seen -> NoDup (seen ++ keepFirst seen l)) as Hkeep.
    { induction l as [|v l IH]; intros seen Hseen; simpl.
      - by rewrite app_nil_r.
      - destruct (decide (v ∈ seen)) as [Hin|Hnew]; [by apply IH|].
        specialize (IH (seen ++ [v])). rewrite <- app_assoc in IH. apply IH.
        apply NoDup_app. repeat split; [done | | apply NoDup_singleton].
        intros x Hx Hxv. apply list_elem_of_singleton in Hxv. by subst. }
    apply (Hkeep _ [] ltac:(constructor)).
Qed.
End ChainAndSocket.

(** ** The hook and the walker together *)

(** A timer made by the hooked [setInterval] carries the caller's first
    argument as [_wrappedCallback]; the fields the wrapped function set are
    kept. *)
Lemma applySetInterval_hook (native : list value -> obj) (f : setIntervalFn)
    (arguments : list value) :
  let t := applySetInterval native (setIntervalHook f) arguments in
  _wrappedCallback t = nth 0 arguments VUndefined
  /\ _repeat t = _repeat (applySetInterval native f arguments)
  /\ _onTimeout t = _onTimeout (applySetInterval native f arguments)
  /\ _idleTimeout t = _idleTimeout (applySetInterval native f arguments)
  /\ _idleNext t = _idleNext (applySetInterval native f arguments).
Proof. simpl. repeat split. Qed.

(** An interval timer made through the hook and found as the only node of a
    handle's idle list is reported once, as a ['setInterval'] entry for the
    function the caller passed, with the timer's [_idleTimeout], provided
    the runtime did not itself put a function in [_repeat]; what the
    runtime stored in [_onTimeout] plays no part. *)
Theorem hooked_interval_is_reported (rt : runtime) (heap : gmap objref obj)
    (handle n : objref) (native : list value -> obj) (f : setIntervalFn)
    (arguments : list value) (cb : fnref) (i : info) :
  _idleNext (getObj heap handle) = Some n ->
  _handle (getObj heap handle) = None ->
  getObj heap n = applySetInterval native (setIntervalHook f) arguments ->
  (_idleNext (getObj heap n) = None \/ _idleNext (getObj heap n) = Some n) ->
  nth 0 arguments VUndefined = VFunction cb ->
  isFunction (_repeat (applySetInterval native f arguments)) = false ->
  functionInfo rt (VFunction cb) = Normal i ->
  resolveHandle rt heap handle
  = Normal [set_type type_setInterval
              (set_msecs (_idleTimeout (applySetInterval native f arguments)) i)].
Proof.
  intros Hnext Hsock Hnode Hend Hcb Hrepeat Hi.
  destruct (applySetInterval_hook native f arguments) as (Hw & Hr & _ & Hms & _).
  rewrite <- Hnode in Hw, Hr, Hms.
  assert (isTimerNode (getObj heap n) = true) as Hq.
  { unfold isTimerNode. by rewrite Hw, Hcb, orb_true_r. }
  assert (nodeCallback (getObj heap n) = VFunction cb
          /\ chosenPath (getObj heap n) = WrappedPath) as [Hcall Hpath].
  { unfold nodeCallback, chosenPath. rewrite Hr, Hrepeat, Hw, Hcb. simpl.
    by rewrite Hw, Hcb. }
  unfold resolveHandle, resolveHandle_run. rewrite bind_run.
  rewrite (walk_of_chain rt heap handle [n] (_idleNext (getObj heap n))).
  - rewrite Hsock. change (map (getObj heap) [n]) with [getObj heap n].
    cbn [timerEntries]. rewrite Hq, Hcall, Hi. simpl.
    unfold timerEntry. by rewrite Hpath, Hms.
  - by rewrite Hnext.
  - apply NoDup_singleton.
  - destruct Hend as [->| ->]; [by left|right]. exists n. split; [done | left].
  - unfold timerCallbacks. cbn [map List.filter]. rewrite Hq. apply NoDup_singleton.
  - unfold timerCallbacks. cbn [map List.filter]. rewrite Hq. cbn [map]. rewrite Hcall.
    constructor; [by exists i | constructor].
Qed.

(** Calling [hookSetInterval] again never changes the timers
    [timers.setInterval] makes, although below the version bound each call
    wraps the function once more. *)
Theorem hookSetInterval_twice_same_timers (version : string) (f : setIntervalFn)
    (native : list value -> obj) (arguments : list value) :
  applySetInterval native (hookSetInterval version (hookSetInterval version f)) arguments
  = applySetInterval native (hookSetInterval version f) arguments
  /\ (versionGreaterEqualOneSixTwo version = false ->
      hookSetInterval version (hookSetInterval version f)
      = setIntervalHook (setIntervalHook f)).
Proof.
  unfold hookSetInterval. destruct (versionGreaterEqualOneSixTwo version); [done|].
  split; [reflexivity | done].
Qed.

(** ** The properties above on the sample records *)

(** Scenario D: two entries at one location. *)
Lemma print_counts_repeated_locations_witness :
  snd (print sampleRuntime sampleColors heapTwoHandles [0; 1]%nat) !! 1%nat
  = Some (newline +:+ "<g>tick:</g> <b>app.js:10:2</b> (setTimeout)" +:+ newline
          +:+ "Count: 2. Source printed above").
Proof.
  destruct (print_counts_repeated_locations sampleRuntime sampleColors heapTwoHandles
              [0; 1]%nat _ ltac:(vm_compute; reflexivity)) as (_ & _ & Hblocks).
  rewrite (Hblocks 1%nat _ ltac:(reflexivity)). vm_compute. reflexivity.
Defined.

Lemma locString_same_place_witness :
  locString (mkInfo (VFunction 0) "tick" "" "" (Some (mkLocation "app.js" 10 2 "")) None None None)
  = locString (mkInfo (VFunction 1) "f" "" "" (Some (mkLocation "app.js" 10 2 "g")) None None None).
Proof. apply (proj2 (locString_same_place _ _)). simpl. repeat split. Defined.

Lemma resolved_entries_identified_witness :
  exists e1 e2, activeHandles sampleRuntime heapCycle [0%nat] = Normal [e1; e2]
    /\ name e1 <> "" /\ name e2 <> "".
Proof.
  eexists _, _. split; [vm_compute; reflexivity|].
  pose proof (resolved_entries_identified sampleRuntime heapCycle [0%nat] _
                ltac:(vm_compute; reflexivity)) as Hall.
  apply Forall_cons in Hall as [(_ & H1 & _) Hall].
  apply Forall_cons in Hall as [(_ & H2 & _) _].
  split; [exact H1 | exact H2].
Defined.

Lemma resolveHandle_entries_distinct_witness :
  exists l, resolveHandle sampleRuntime heapCycle 0 = Normal l
    /\ length l = 2%nat /\ NoDup (fn <$> l).
Proof.
  eexists. split; [vm_compute; reflexivity|]. split; [reflexivity|].
  apply (resolveHandle_entries_distinct sampleRuntime heapCycle 0). vm_compute. reflexivity.
Defined.

Lemma walk_visits_the_links_witness :
  exists stop,
    linked heapCycle (_idleNext (getObj heapCycle 0)) [1; 2; 0]%nat stop
    /\ (stop = None \/ exists m, stop = Some m /\ m ∈ [1; 2; 0]%nat).
Proof.
  destruct (walk_visits_the_links sampleRuntime heapCycle 0 _ ltac:(vm_compute; reflexivity))
    as (stop & Hlink & Hstop & _).
  exists stop. split; [exact Hlink | exact Hstop].
Defined.

Lemma resolveHandle_timers_then_socket_witness :
  exists t s1 s2, resolveHandle sampleRuntime heapSocketWithTimeout 0 = Normal [t; s1; s2]
    /\ type t = Some type_setTimeout
    /\ type s1 = Some type_net_connection /\ fd s1 = Some (VNumber 12)
    /\ type s2 = None /\ fd s2 = Some (VNumber 12).
Proof.
  destruct (resolveHandle_timers_then_socket sampleRuntime heapSocketWithTimeout 0 [1%nat] None
              [("fd", VNumber 12); ("onconnection", VFunction 1); ("onclose", VFunction 2)])
    as [Hres _].
  - vm_compute. repeat split.
  - apply NoDup_singleton.
  - by left.
  - reflexivity.
  - reflexivity.
  - apply (bool_decide_unpack _). vm_compute. reflexivity.
  - repeat constructor; eexists; vm_compute; reflexivity.
  - eexists _, _, _. split; [rewrite Hres; vm_compute; reflexivity|]. simpl. repeat split.
Defined.

Lemma socket_without_descriptor_deduplicates_witness :
  exists e1 e2, resolveHandle sampleRuntime heapSameCallbackNoDescriptor 0 = Normal [e1; e2]
    /\ fn e1 = VFunction 0 /\ fn e2 = VFunction 1.
Proof.
  destruct (socket_without_descriptor_deduplicates sampleRuntime heapSameCallbackNoDescriptor 0
              [("onread", VFunction 0); ("onend", VFunction 0); ("onclose", VFunction 1)])
    as (infos & Hres & _ & _).
  - reflexivity.
  - reflexivity.
  - reflexivity.
  - repeat constructor; eexists; vm_compute; reflexivity.
  - eexists _, _. split; [vm_compute; reflexivity|]. simpl. by split.
Defined.

Lemma hooked_interval_is_reported_witness :
  exists e, resolveHandle sampleRuntime heapHookedInterval 0 = Normal [e]
    /\ fn e = VFunction 0 /\ type e = Some type_setInterval
    /\ msecs e = Some (VNumber 1000).
Proof.
  eexists. split.
  - apply (hooked_interval_is_reported sampleRuntime heapHookedInterval 0 1
             sampleNativeSetInterval nativeSetInterval [VFunction 0%nat; VNumber 1000] 0%nat).
    + reflexivity.
    + reflexivity.
    + reflexivity.
    + by left.
    + reflexivity.
    + reflexivity.
    + vm_compute. reflexivity.
  - simpl. repeat split.
Defined.

Lemma hookSetInterval_twice_same_timers_witness :
  hookSetInterval "v0.12.7" (hookSetInterval "v0.12.7" nativeSetInterval)
  = setIntervalHook (setIntervalHook nativeSetInterval)
  /\ applySetInterval sampleNativeSetInterval
       (hookSetInterval "v0.12.7" (hookSetInterval "v0.12.7" nativeSetInterval))
       [VFunction 0%nat; VNumber 1000]
     = applySetInterval sampleNativeSetInterval (hookSetInterval "v0.12.7" nativeSetInterval)
         [VFunction 0%nat; VNumber 1000].
Proof.
  destruct (hookSetInterval_twice_same_timers "v0.12.7" nativeSetInterval
              sampleNativeSetInterval [VFunction 0%nat; VNumber 1000]) as [Hsame Hnest].
  split; [apply Hnest; vm_compute; reflexivity | exact Hsame].
Defined.

Lemma hookSetInterval_below_witness :
  hookSetInterval "v1.6.1" nativeSetInterval = setIntervalHook nativeSetInterval
  /\ hookSetInterval "v0.12.7" nativeSetInterval = setIntervalHook nativeSetInterval.
Proof.
  split.
  - apply (hookSetInterval_below "v1.6.1" (1, 6, 1)); vm_compute; reflexivity.
  - apply (hookSetInterval_below "v0.12.7" (0, 12, 7)); vm_compute; reflexivity.
Defined.

Lemma hookSetInterval_componentwise_witness :
  hookSetInterval "v1.6.2" nativeSetInterval = nativeSetInterval
  /\ hookSetInterval "v3.8.4" nativeSetInterval = nativeSetInterval.
Proof.
  split.
  - apply (proj2 (hookSetInterval_componentwise "v1.6.2" 1 6 2 nativeSetInterval
                    ltac:(vm_compute; reflexivity))). lia.
  - apply (proj2 (hookSetInterval_componentwise "v3.8.4" 3 8 4 nativeSetInterval
                    ltac:(vm_compute; reflexivity))). lia.
Defined.

Lemma functionInfo_completes_witness :
  (exists i, functionInfo sampleRuntime (VFunction 0) = Normal i)
  /\ ~ (exists i, functionInfo sampleRuntime (VFunction 3) = Normal i).
Proof.
  split.
  - apply (proj2 (functionInfo_completes sampleRuntime 0)). by left.
  - intros Hsome. apply (proj1 (functionInfo_completes sampleRuntime 3)) in Hsome.
    destruct Hsome as [Hnamed|[l Hl]]; discriminate.
Defined.
